(** * fish-audio-go: the audio streaming engine

    A shallow embedding of the two audio streams of the SDK and of the
    duplex WebSocket engine that feeds the second one:

    - [AudioStream] (audio_stream.go): chunked iteration over one HTTP
      response body;
    - [TTSService.Convert], [TTSService.Stream], [buildRequest],
      [getModel] (tts.go);
    - [WebSocketAudioStream] and the two goroutines started by
      [TTSService.StreamWebSocket] (tts.go), as a labelled transition
      system over the three channels they share.

    Go values are modelled as follows.  A [[]byte] is a [list byte]; a
    Go [error] is a value of the inductive type [error]; [nil] errors
    are [None].  A nil-pointer dereference is the result [None] of an
    operation whose Go counterpart would panic. *)

From Stdlib Require Import String Bool Arith ZArith Lia List.
From Stdlib Require Import Floats.PrimFloat.
From Stdlib Require Import Init.Byte.
Import ListNotations.
Local Open Scope string_scope.
Local Open Scope nat_scope.
Local Open Scope list_scope.

Set Implicit Arguments.

(** ** Bytes and errors *)

Definition bytes := list byte.

(** The byte slice of a string literal, [[]byte("...")]. *)
Definition b (s : string) : bytes := list_byte_of_string s.

(** Go errors that the engine creates, wraps or compares against. *)
Inductive error : Type :=
| io_EOF                                   (* io.EOF *)
| WebSocketError (Message : string)        (* &WebSocketError{Message: ...} *)
| Errorf (prefix : string) (cause : error) (* fmt.Errorf("<prefix>: %w", cause) *)
| CloseError (code : nat)                  (* *websocket.CloseError *)
| TransportError (text : string).          (* any other error of a collaborator *)

(** [err == io.EOF] *)
Definition is_EOF (e : error) : bool :=
  match e with io_EOF => true | _ => false end.

Definition isSome {A} (o : option A) : bool :=
  match o with Some _ => true | None => false end.

(** ** The response body (io.ReadCloser)

    The body is a collaborator of the stream.  It is modelled by what it
    will deliver: a list of arrivals, each a run of bytes together with
    the condition (if any) that the reader reports along with the last
    of them.  [io.Reader] allows a [Read] to return [n > 0] together with
    a non-nil error, and net/http does so for the last bytes of a body
    of known length. *)

Record ReadCloser : Type := mkBody {
  pending : list (bytes * option error);
  closeErr : option error;   (* what Close() returns *)
  closes : nat               (* how many times Close() was called *)
}.

(** [Read(p)] with [len(p) = k]: at most [k] bytes of the first arrival;
    the condition of the arrival is reported with its last bytes.  An
    exhausted body reports [io.EOF]. *)
Definition Body_Read (k : nat) (r : ReadCloser) : (bytes * option error) * ReadCloser :=
  match pending r with
  | [] => (([], Some io_EOF), r)
  | (d, c) :: rest =>
      if length d <=? k
      then ((d, c), mkBody rest (closeErr r) (closes r))
      else ((firstn k d, None), mkBody ((skipn k d, c) :: rest) (closeErr r) (closes r))
  end.

Definition Body_Close (r : ReadCloser) : option error * ReadCloser :=
  (closeErr r, mkBody (pending r) (closeErr r) (S (closes r))).

(** A body that delivers [d] the way [bytes.Reader] does: data first,
    [io.EOF] on the read after the last byte. *)
Definition bodyOf (d : bytes) : ReadCloser := mkBody [(d, None)] None 0.

(** [io.Copy(&buf, body)]: read until a condition is reported; the bytes
    that come with it are kept; [io.EOF] is not an error.  [copyLoop]
    is the loop, [io_Copy] runs it with as many iterations as the body
    can need. *)
Definition copyBufSize : nat := 512.   (* bytes.MinRead *)

Fixpoint copyLoop (fuel k : nat) (acc : bytes) (r : ReadCloser)
  : (bytes * option error) * ReadCloser :=
  match fuel with
  | 0 => ((acc, None), r)
  | S fuel' =>
      let '((d, c), r') := Body_Read k r in
      match c with
      | None => copyLoop fuel' k (acc ++ d) r'
      | Some e => if is_EOF e then ((acc ++ d, None), r')
                  else ((acc ++ d, Some e), r')
      end
  end.

Fixpoint weight (p : list (bytes * option error)) : nat :=
  match p with
  | [] => 0
  | (d, _) :: rest => S (length d) + weight rest
  end.

Definition io_Copy (r : ReadCloser) : (bytes * option error) * ReadCloser :=
  copyLoop (S (weight (pending r))) copyBufSize [] r.

(** What a body delivers before it first reports a condition, and that
    condition; an exhausted body reports [io.EOF]. *)
Fixpoint delivered (p : list (bytes * option error)) : bytes * error :=
  match p with
  | [] => ([], io_EOF)
  | (d, None) :: rest => let (x, e) := delivered rest in (d ++ x, e)
  | (d, Some e) :: _ => (d, e)
  end.

(** A body reports the end of its data on a read of its own, as
    [bytes.Reader] does. *)
Definition eofAlone (p : list (bytes * option error)) : Prop :=
  Forall (fun a => snd a = Some io_EOF -> fst a = []) p.

(** ** AudioStream (audio_stream.go) *)

Record Response : Type := mkResponse { Body : option ReadCloser }.

Record AudioStream : Type := mkAudioStream {
  resp : option Response;
  buf : bytes;
  chunkSize : nat;
  err : option error;
  closed : bool
}.

Module AudioStreamOps.

Definition newAudioStream (r : Response) : AudioStream :=
  mkAudioStream (Some r) [] 4096 None false.

(** [s.resp.Body], [None] when the dereference panics. *)
Definition body (s : AudioStream) : option ReadCloser :=
  match resp s with
  | Some r => Body r
  | None => None
  end.

Definition setBody (s : AudioStream) (r : ReadCloser) : AudioStream :=
  mkAudioStream (Some (mkResponse (Some r))) (buf s) (chunkSize s) (err s) (closed s).

(** [make([]byte, n)] filled with the first bytes read. *)
Definition filled (n : nat) (d : bytes) : bytes :=
  d ++ repeat x00 (n - length d).

Definition Next (s : AudioStream) : option (bool * AudioStream) :=
  if closed s || isSome (err s) then Some (false, s)
  else
    match body s with
    | None => None
    | Some r =>
        let '((d, c), r') := Body_Read (chunkSize s) r in
        let resp' := Some (mkResponse (Some r')) in
        match c with
        | Some e =>
            if is_EOF e
            then Some (false, mkAudioStream resp' (filled (chunkSize s) d) (chunkSize s) (err s) true)
            else Some (false, mkAudioStream resp' (filled (chunkSize s) d) (chunkSize s) (Some e) (closed s))
        | None =>
            Some (true, mkAudioStream resp' d (chunkSize s) (err s) (closed s))
        end
    end.

Definition Bytes (s : AudioStream) : bytes := buf s.

Definition Err (s : AudioStream) : option error := err s.

Definition Close (s : AudioStream) : option error * AudioStream :=
  if closed s then (None, s)
  else
    match resp s with
    | Some (mkResponse (Some r)) =>
        let '(e, r') := Body_Close r in
        (e, mkAudioStream (Some (mkResponse (Some r'))) (buf s) (chunkSize s) (err s) true)
    | _ => (None, mkAudioStream (resp s) (buf s) (chunkSize s) (err s) true)
    end.

(** [Collect]: [io.Copy] from the body, then the deferred [Close]. *)
Definition Collect (s : AudioStream) : option ((bytes * option error) * AudioStream) :=
  match body s with
  | None => None
  | Some r =>
      let '((d, c), r') := io_Copy r in
      let s' := snd (Close (setBody s r')) in
      match c with
      | Some e => Some (([], Some e), s')
      | None => Some ((d, None), s')
      end
  end.

Definition Read (k : nat) (s : AudioStream) : option ((bytes * option error) * AudioStream) :=
  if closed s then Some (([], Some io_EOF), s)
  else
    match body s with
    | None => None
    | Some r =>
        let '(res, r') := Body_Read k r in
        Some (res, setBody s r')
    end.

(** The chunk-by-chunk way of consuming the stream,
    [for s.Next() { out.Write(s.Bytes()) }], run for at most [fuel]
    calls of [Next].  The result is [None] when a call panics or when
    [fuel] calls did not reach the end. *)
Fixpoint drain (fuel : nat) (acc : bytes) (s : AudioStream) : option (bytes * AudioStream) :=
  match fuel with
  | 0 => None
  | S fuel' =>
      match Next s with
      | None => None
      | Some (true, s') => drain fuel' (acc ++ Bytes s') s'
      | Some (false, s') => Some (acc, s')
      end
  end.

(** [n] calls of [Read] with a buffer of [k] bytes that all return
    bytes and no error: the pieces in order. *)
Fixpoint readN (n k : nat) (s : AudioStream) : option (list bytes * AudioStream) :=
  match n with
  | 0 => Some ([], s)
  | S n' =>
      match Read k s with
      | Some ((d, None), s') =>
          match readN n' k s' with
          | Some (ds, s'') => Some (d :: ds, s'')
          | None => None
          end
      | _ => None
      end
  end.

(** How often the body of a stream has been closed. *)
Definition bodyCloses (s : AudioStream) : nat :=
  match body s with
  | Some r => closes r
  | None => 0
  end.

(** A caller's operations on a stream, and a sequence of them. *)
Inductive op : Type := OpNext | OpBytes | OpErr | OpCollect | OpClose | OpRead (k : nat).

Definition runOp (o : op) (s : AudioStream) : option AudioStream :=
  match o with
  | OpNext => option_map snd (Next s)
  | OpBytes => Some s
  | OpErr => Some s
  | OpCollect => option_map snd (Collect s)
  | OpClose => Some (snd (Close s))
  | OpRead k => option_map snd (Read k s)
  end.

Fixpoint runOps (os : list op) (s : AudioStream) : option AudioStream :=
  match os with
  | [] => Some s
  | o :: os' =>
      match runOp o s with
      | Some s' => runOps os' s'
      | None => None
      end
  end.

End AudioStreamOps.

(** ** Text-to-speech requests (tts.go)

    [Model], [AudioFormat] and [LatencyMode] are string types; an [int]
    is a [Z]; a [float64] is a primitive float, of which the code only
    asks whether it is zero. *)

Definition float64 := PrimFloat.float.

(** [x != 0] on a [float64]. *)
Definition nonzero (x : float64) : bool := negb (PrimFloat.eqb x PrimFloat.zero).

(** [s != ""] *)
Definition nonempty (s : string) : bool :=
  match s with EmptyString => false | _ => true end.

Module ReferenceAudio.
Record t : Type := mk { Audio : bytes; Text : string }.
End ReferenceAudio.

Module Prosody.
Record t : Type := mk { Speed : float64; Volume : float64 }.
End Prosody.

Module TTSConfig.
Record t : Type := mk {
  Model : string;
  Format : string;
  SampleRate : Z;
  MP3Bitrate : Z;
  OpusBitrate : Z;
  Normalize : option bool;
  ChunkLength : Z;
  Latency : string;
  ReferenceID : string;
  References : list ReferenceAudio.t;
  Prosody : option Prosody.t;
  TopP : float64;
  Temperature : float64
}.
End TTSConfig.

Module ConvertParams.
Record t : Type := mk {
  Text : string;
  Model : string;
  ReferenceID : string;
  References : list ReferenceAudio.t;
  Format : string;
  Latency : string;
  Speed : float64;
  Config : option TTSConfig.t
}.
End ConvertParams.

Module StreamParams.
Record t : Type := mk {
  Text : string;
  Model : string;
  ReferenceID : string;
  References : list ReferenceAudio.t;
  Format : string;
  Latency : string;
  Speed : float64;
  Config : option TTSConfig.t
}.
(** [&StreamParams{}] *)
Definition zero : t := mk "" "" "" [] "" "" PrimFloat.zero None.
End StreamParams.

Module ttsRequest.
Record t : Type := mk {
  Text : string;
  ChunkLength : Z;
  Format : string;
  SampleRate : Z;
  MP3Bitrate : Z;
  OpusBitrate : Z;
  References : list ReferenceAudio.t;
  ReferenceID : string;
  Normalize : option bool;
  Latency : string;
  Prosody : option Prosody.t;
  TopP : float64;
  Temperature : float64
}.
End ttsRequest.

Record RequestOptions : Type := mkRequestOptions {
  AdditionalHeaders : list (string * string)
}.

(** [getModel]: the model of the params, else the model of the config. *)
Definition getModel (params : StreamParams.t) : string :=
  if nonempty (StreamParams.Model params) then StreamParams.Model params
  else
    match StreamParams.Config params with
    | Some cfg => if nonempty (TTSConfig.Model cfg) then TTSConfig.Model cfg else ""
    | None => ""
    end.

(** [buildRequest]: the request of the params, with the speed as
    prosody, completed and overridden from the config field by field in
    the order of the source. *)
Definition buildRequest (params : StreamParams.t) : ttsRequest.t :=
  let text := StreamParams.Text params in
  let referenceID := StreamParams.ReferenceID params in
  let references := StreamParams.References params in
  let format := StreamParams.Format params in
  let latency := StreamParams.Latency params in
  let prosody :=
    if nonzero (StreamParams.Speed params)
    then Some (Prosody.mk (StreamParams.Speed params) PrimFloat.zero)
    else None in
  match StreamParams.Config params with
  | None =>
      ttsRequest.mk text 0 format 0 0 0 references referenceID None latency prosody
        PrimFloat.zero PrimFloat.zero
  | Some cfg =>
      let format :=
        if nonempty (TTSConfig.Format cfg) && negb (nonempty format)
        then TTSConfig.Format cfg else format in
      let sampleRate :=
        if negb (TTSConfig.SampleRate cfg =? 0)%Z then TTSConfig.SampleRate cfg else 0%Z in
      let mp3Bitrate :=
        if negb (TTSConfig.MP3Bitrate cfg =? 0)%Z then TTSConfig.MP3Bitrate cfg else 0%Z in
      let opusBitrate :=
        if negb (TTSConfig.OpusBitrate cfg =? 0)%Z then TTSConfig.OpusBitrate cfg else 0%Z in
      let normalize :=
        match TTSConfig.Normalize cfg with Some v => Some v | None => None end in
      let chunkLength :=
        if negb (TTSConfig.ChunkLength cfg =? 0)%Z then TTSConfig.ChunkLength cfg else 0%Z in
      let latency :=
        if nonempty (TTSConfig.Latency cfg) && negb (nonempty latency)
        then TTSConfig.Latency cfg else latency in
      let referenceID :=
        if nonempty (TTSConfig.ReferenceID cfg) && negb (nonempty referenceID)
        then TTSConfig.ReferenceID cfg else referenceID in
      let references :=
        if (0 <? length (TTSConfig.References cfg)) && (length references =? 0)
        then TTSConfig.References cfg else references in
      let prosody :=
        match TTSConfig.Prosody cfg, prosody with
        | Some p, None => Some p
        | _, _ => prosody
        end in
      let topP :=
        if nonzero (TTSConfig.TopP cfg) then TTSConfig.TopP cfg else PrimFloat.zero in
      let temperature :=
        if nonzero (TTSConfig.Temperature cfg) then TTSConfig.Temperature cfg
        else PrimFloat.zero in
      ttsRequest.mk text chunkLength format sampleRate mp3Bitrate opusBitrate
        references referenceID normalize latency prosody topP temperature
  end.

Section TTSService.

(** The HTTP exchange of the client, [s.client.doRequest(ctx, method,
    path, body, opts)], as a function of what is sent. *)
Variable doRequest :
  string -> string -> ttsRequest.t -> option RequestOptions -> Response + error.

Definition Stream (params : StreamParams.t) : AudioStream + error :=
  let req := buildRequest params in
  let model := getModel params in
  let opts :=
    if nonempty model
    then Some (mkRequestOptions [("model", model)])
    else None in
  match doRequest "POST" "/v1/tts" req opts with
  | inr e => inr e
  | inl r => inl (AudioStreamOps.newAudioStream r)
  end.

(** [Convert]: the bytes and the error it returns; [None] when a call
    panics. *)
Definition Convert (params : ConvertParams.t) : option (bytes * option error) :=
  match Stream (StreamParams.mk
                  (ConvertParams.Text params)
                  (ConvertParams.Model params)
                  (ConvertParams.ReferenceID params)
                  (ConvertParams.References params)
                  (ConvertParams.Format params)
                  (ConvertParams.Latency params)
                  (ConvertParams.Speed params)
                  (ConvertParams.Config params)) with
  | inr e => Some ([], Some e)
  | inl stream => option_map fst (AudioStreamOps.Collect stream)
  end.

End TTSService.

(** The parameters of a conversion and the parameters of a stream are
    the same when they agree on every field. *)
Definition sameParams (c : ConvertParams.t) (s : StreamParams.t) : Prop :=
  StreamParams.Text s = ConvertParams.Text c /\
  StreamParams.Model s = ConvertParams.Model c /\
  StreamParams.ReferenceID s = ConvertParams.ReferenceID c /\
  StreamParams.References s = ConvertParams.References c /\
  StreamParams.Format s = ConvertParams.Format c /\
  StreamParams.Latency s = ConvertParams.Latency c /\
  StreamParams.Speed s = ConvertParams.Speed c /\
  StreamParams.Config s = ConvertParams.Config c.

(** ** Channels

    A buffered Go channel: the queued values, the capacity given to
    [make], and whether [close] was called.  Operations that would block
    are partial ([None]). *)

Record chan (A : Type) : Type := mkChan {
  queue : list A;
  capacity : nat;
  isClosed : bool
}.

Arguments mkChan {A} _ _ _.

Definition make {A} (n : nat) : chan A := mkChan [] n false.

(** [ch <- x]: possible when the buffer has room. *)
Definition send {A} (x : A) (ch : chan A) : option (chan A) :=
  if length (queue ch) <? capacity ch
  then Some (mkChan (queue ch ++ [x]) (capacity ch) (isClosed ch))
  else None.

(** [select { case ch <- x: default: }]: never blocks; the value is
    dropped when the buffer is full. *)
Definition trySend {A} (x : A) (ch : chan A) : chan A :=
  match send x ch with
  | Some ch' => ch'
  | None => ch
  end.

(** [v, ok := <-ch]: the oldest queued value; [ok = false] (here [None]
    as the value) once the channel is closed and drained; blocks
    otherwise. *)
Definition recv {A} (ch : chan A) : option (option A * chan A) :=
  match queue ch with
  | x :: rest => Some (Some x, mkChan rest (capacity ch) (isClosed ch))
  | [] => if isClosed ch then Some (None, ch) else None
  end.

Definition closeChan {A} (ch : chan A) : chan A :=
  mkChan (queue ch) (capacity ch) true.

(** ** WebSocketAudioStream (tts.go)

    The stream holds the receiving ends of the two channels; the
    goroutines of the engine act on the same channels through the
    stream stored in the engine state, so there is one copy of each.
    An operation that waits in [select] is partial: [None] means that
    no case can proceed.  When both cases can proceed Go chooses one at
    random; the choice is the argument [pick]. *)

Record WebSocketAudioStream : Type := mkWS {
  audioChan : chan bytes;
  errChan : chan error;
  wsBuf : bytes;
  wsErr : option error;
  wsClosed : bool
}.

Inductive pick : Type := PickAudio | PickErr.

(** What the two-case [select] of [Next] and [Read] receives. *)
Inductive selected : Type :=
| FromAudio (chunk : option bytes) (ch : chan bytes)   (* chunk, ok := <-s.audioChan *)
| FromErr (e : option error) (ch : chan error).        (* err := <-s.errChan *)

Definition selectRecv (p : pick) (s : WebSocketAudioStream) : option selected :=
  match recv (audioChan s), recv (errChan s) with
  | None, None => None
  | Some (c, ch), None => Some (FromAudio c ch)
  | None, Some (e, ch) => Some (FromErr e ch)
  | Some (c, ch), Some (e, ch') =>
      match p with
      | PickAudio => Some (FromAudio c ch)
      | PickErr => Some (FromErr e ch')
      end
  end.

Module WebSocketAudioStreamOps.

Definition Next (p : pick) (s : WebSocketAudioStream) : option (bool * WebSocketAudioStream) :=
  if wsClosed s || isSome (wsErr s) then Some (false, s)
  else
    match selectRecv p s with
    | None => None
    | Some (FromAudio None ch) =>
        Some (false, mkWS ch (errChan s) (wsBuf s) (wsErr s) true)
    | Some (FromAudio (Some chunk) ch) =>
        Some (true, mkWS ch (errChan s) chunk (wsErr s) (wsClosed s))
    | Some (FromErr e ch) =>
        Some (false, mkWS (audioChan s) ch (wsBuf s) e (wsClosed s))
    end.

Definition Bytes (s : WebSocketAudioStream) : bytes := wsBuf s.

Definition Err (s : WebSocketAudioStream) : option error := wsErr s.

(** [Read(p)] with [len(p) = k]: the bytes copied into [p] and the
    error returned. *)
Definition Read (k : nat) (p : pick) (s : WebSocketAudioStream)
  : option ((bytes * option error) * WebSocketAudioStream) :=
  if 0 <? length (wsBuf s)
  then Some ((firstn k (wsBuf s), None),
             mkWS (audioChan s) (errChan s) (skipn k (wsBuf s)) (wsErr s) (wsClosed s))
  else
    match selectRecv p s with
    | None => None
    | Some (FromAudio None ch) =>
        Some (([], Some io_EOF), mkWS ch (errChan s) (wsBuf s) (wsErr s) (wsClosed s))
    | Some (FromAudio (Some chunk) ch) =>
        Some ((firstn k chunk, None),
              mkWS ch (errChan s)
                (if length (firstn k chunk) <? length chunk then skipn k chunk else wsBuf s)
                (wsErr s) (wsClosed s))
    | Some (FromErr e ch) =>
        Some (([], e), mkWS (audioChan s) ch (wsBuf s) e (wsClosed s))
    end.

Definition Close (s : WebSocketAudioStream) : option error * WebSocketAudioStream :=
  (None, mkWS (audioChan s) (errChan s) (wsBuf s) (wsErr s) true).

(** [Collect] is a loop over [Next] that may wait in every iteration.
    [CollectIter] is one iteration on the bytes written so far: either
    the loop goes on with more bytes, or [Collect] returns. *)
Inductive collecting : Type :=
| Looping (acc : bytes)
| Returns (res : bytes * option error).

Definition CollectIter (p : pick) (acc : bytes) (s : WebSocketAudioStream)
  : option (collecting * WebSocketAudioStream) :=
  match Next p s with
  | None => None
  | Some (true, s') => Some (Looping (acc ++ Bytes s'), s')
  | Some (false, s') =>
      match wsErr s' with
      | Some e => Some (Returns ([], Some e), s')
      | None => Some (Returns (acc, None), s')
      end
  end.

(** [Collect] on a stream whose channels nobody else touches (both
    goroutines have ended, or a test filled the channels by hand):
    the loop runs by itself.  [picks] resolves the selects in order;
    the result is [None] when an iteration blocks or the picks run
    out. *)
Fixpoint Collect (picks : list pick) (acc : bytes) (s : WebSocketAudioStream)
  : option ((bytes * option error) * WebSocketAudioStream) :=
  match picks with
  | [] => None
  | p :: picks' =>
      match CollectIter p acc s with
      | None => None
      | Some (Looping acc', s') => Collect picks' acc' s'
      | Some (Returns res, s') => Some (res, s')
      end
  end.

(** [n] calls of [Read] with a buffer of [k] bytes that all return
    bytes and no error: the pieces in order. *)
Fixpoint readN (n k : nat) (p : pick) (s : WebSocketAudioStream)
  : option (list bytes * WebSocketAudioStream) :=
  match n with
  | 0 => Some ([], s)
  | S n' =>
      match Read k p s with
      | Some ((d, None), s') =>
          match readN n' k p s' with
          | Some (ds, s'') => Some (d :: ds, s'')
          | None => None
          end
      | _ => None
      end
  end.

End WebSocketAudioStreamOps.

(** ** The duplex engine ([TTSService.StreamWebSocket], tts.go)

    The protocol events.  Encoding and decoding are msgpack's; a frame
    is modelled by the event it carries, and the outcome of each
    [msgpack.Marshal], [conn.WriteMessage] and [conn.ReadMessage] is
    given by the environment. *)

Inductive event : Type :=
| startEvent (Event : string) (Request : ttsRequest.t)
| textEvent (Event : string) (Text : string)
| closeEvent (Event : string).

Record wsResponse : Type := mkResp {
  Event : string;
  Audio : bytes;
  Reason : string
}.

(** What one round of [conn.ReadMessage()] and [msgpack.Unmarshal]
    gives the receive loop. *)
Inductive inbound : Type :=
| ReadFails (e : error)       (* ReadMessage returned an error *)
| Undecodable (e : error)     (* Unmarshal returned an error *)
| Frame (r : wsResponse).     (* a decoded response *)

Definition CloseNormalClosure : nat := 1000.
Definition CloseNoStatusReceived : nat := 1005.

(** [websocket.IsCloseError(err, CloseNormalClosure, CloseNoStatusReceived)] *)
Definition IsCloseError (e : error) : bool :=
  match e with
  | CloseError c => (c =? CloseNormalClosure) || (c =? CloseNoStatusReceived)
  | _ => false
  end.

Record WebSocketOptions : Type := mkOpts {
  MaxMessageSize : Z;
  ReadBufferSize : Z;
  WriteBufferSize : Z
}.

Definition DefaultWebSocketOptions : WebSocketOptions := mkOpts 65536 1024 1024.

(** Where each goroutine stands.  The deferred calls of the receive
    goroutine run one after the other, last deferred first. *)
Inductive sendPc : Type := SendRunning | SendDeferred | SendExited.

Inductive recvPc : Type :=
| RecvRunning
| RecvClosingDone      (* about to close(doneChan) *)
| RecvClosingConn      (* about to conn.Close() *)
| RecvClosingAudio     (* about to close(audioChan) *)
| RecvExited.

(** Where the caller of the stream stands: between calls, inside
    [Collect], or back from it. *)
Inductive callerPc : Type :=
| Free
| Collecting (acc : bytes)
| Returned (res : bytes * option error).

Record engine : Type := mkEngine {
  inboundQ : list inbound;                (* what the connection will deliver *)
  textChan : chan string;                 (* the caller's text source *)
  doneChan : bool;                        (* closed? *)
  connCloses : nat;                       (* calls of conn.Close() *)
  written : list (event * option error);  (* calls of conn.WriteMessage and their results *)
  sender : sendPc;
  receiver : recvPc;
  stream : WebSocketAudioStream;
  caller : callerPc;
  published : list error;                 (* history: every error offered to errChan *)
  observed : list error                   (* history: every error handed to the caller *)
}.

Section EngineUpdates.
Variable st : engine.

Definition setInbound (q : list inbound) : engine :=
  mkEngine q (textChan st) (doneChan st) (connCloses st) (written st) (sender st)
    (receiver st) (stream st) (caller st) (published st) (observed st).

Definition setTextChan (c : chan string) : engine :=
  mkEngine (inboundQ st) c (doneChan st) (connCloses st) (written st) (sender st)
    (receiver st) (stream st) (caller st) (published st) (observed st).

Definition setDone (d : bool) : engine :=
  mkEngine (inboundQ st) (textChan st) d (connCloses st) (written st) (sender st)
    (receiver st) (stream st) (caller st) (published st) (observed st).

Definition setConnCloses (n : nat) : engine :=
  mkEngine (inboundQ st) (textChan st) (doneChan st) n (written st) (sender st)
    (receiver st) (stream st) (caller st) (published st) (observed st).

Definition setWritten (w : list (event * option error)) : engine :=
  mkEngine (inboundQ st) (textChan st) (doneChan st) (connCloses st) w (sender st)
    (receiver st) (stream st) (caller st) (published st) (observed st).

Definition setSender (p : sendPc) : engine :=
  mkEngine (inboundQ st) (textChan st) (doneChan st) (connCloses st) (written st) p
    (receiver st) (stream st) (caller st) (published st) (observed st).

Definition setReceiver (p : recvPc) : engine :=
  mkEngine (inboundQ st) (textChan st) (doneChan st) (connCloses st) (written st) (sender st)
    p (stream st) (caller st) (published st) (observed st).

Definition setStream (s : WebSocketAudioStream) : engine :=
  mkEngine (inboundQ st) (textChan st) (doneChan st) (connCloses st) (written st) (sender st)
    (receiver st) s (caller st) (published st) (observed st).

Definition setCaller (c : callerPc) : engine :=
  mkEngine (inboundQ st) (textChan st) (doneChan st) (connCloses st) (written st) (sender st)
    (receiver st) (stream st) c (published st) (observed st).

Definition setPublished (l : list error) : engine :=
  mkEngine (inboundQ st) (textChan st) (doneChan st) (connCloses st) (written st) (sender st)
    (receiver st) (stream st) (caller st) l (observed st).

Definition setObserved (l : list error) : engine :=
  mkEngine (inboundQ st) (textChan st) (doneChan st) (connCloses st) (written st) (sender st)
    (receiver st) (stream st) (caller st) (published st) l.

Definition setAudioChan (c : chan bytes) : engine :=
  setStream (mkWS c (errChan (stream st)) (wsBuf (stream st)) (wsErr (stream st))
               (wsClosed (stream st))).

Definition setErrChan (c : chan error) : engine :=
  setStream (mkWS (audioChan (stream st)) c (wsBuf (stream st)) (wsErr (stream st))
               (wsClosed (stream st))).
End EngineUpdates.

(** [select { case errChan <- e: default: }], the only way either
    goroutine reports an error. *)
Definition publish (e : error) (st : engine) : engine :=
  setPublished (setErrChan st (trySend e (errChan (stream st)))) (published st ++ [e]).

(** [conn.WriteMessage(websocket.BinaryMessage, data)] with its result. *)
Definition writeMessage (ev : event) (w : option error) (st : engine) : engine :=
  setWritten st (written st ++ [(ev, w)]).

(** What the environment decides when the engine starts. *)
Record handshake : Type := mkHandshake {
  dial : option error;            (* dialer.DialContext *)
  startMarshal : option error;    (* msgpack.Marshal(start) *)
  startWrite : option error;      (* conn.WriteMessage of the start event *)
  deliveries : list inbound       (* what the connection delivers afterwards *)
}.

(** The outcome of [StreamWebSocket]: the running engine around the
    stream it returns, or the error it returns together with what it
    did to the connection before returning. *)
Inductive started : Type :=
| Running (st : engine)
| Failed (e : error) (closes : nat) (wrote : list (event * option error)).

Definition StreamWebSocket (env : handshake) (textChan : chan string)
    (params : option StreamParams.t) (opts : option WebSocketOptions) : started :=
  let opts := match opts with Some o => o | None => DefaultWebSocketOptions end in
  let params := match params with Some p => p | None => StreamParams.zero end in
  match dial env with
  | Some e => Failed (Errorf "websocket dial failed" e) 0 []
  | None =>
      let start := startEvent "start" (buildRequest params) in
      match startMarshal env with
      | Some e => Failed (Errorf "failed to marshal start event" e) 1 []
      | None =>
          match startWrite env with
          | Some e => Failed (Errorf "failed to send start event" e) 1 [(start, Some e)]
          | None =>
              Running (mkEngine (deliveries env) textChan false 0 [(start, None)]
                         SendRunning RecvRunning
                         (mkWS (make 100) (make 1) [] None false)
                         Free [] [])
          end
      end
  end.

(** *** The steps of the engine

    One step is one iteration of a goroutine's loop, one deferred call,
    or one call (or loop iteration) of the caller.  The labels carry
    what the environment and the scheduler decide. *)

Inductive action : Type :=
| SendText (m w : option error)   (* a fragment is received; results of Marshal and WriteMessage *)
| SendEnd                         (* textChan is closed and drained *)
| SendDone                        (* doneChan is closed *)
| SendStop (m w : option error)   (* the deferred stop event *)
| Recv                            (* ReadMessage, Unmarshal, dispatch *)
| RecvCloseDone
| RecvCloseConn
| RecvCloseAudio
| CallNext (p : pick)
| CallRead (k : nat) (p : pick)
| CallClose
| CallCollect (p : pick).         (* enter Collect if need be, then one iteration *)

(** The send goroutine. *)
Definition stepSendText (m w : option error) (st : engine) : option engine :=
  match sender st, recv (textChan st) with
  | SendRunning, Some (Some text, ch) =>
      let st := setTextChan st ch in
      let evt := textEvent "text" text in
      match m with
      | Some e =>
          Some (setSender (publish (Errorf "failed to marshal text event" e) st) SendDeferred)
      | None =>
          let st := writeMessage evt w st in
          match w with
          | Some e => Some (setSender (publish (Errorf "failed to send text" e) st) SendDeferred)
          | None => Some st
          end
      end
  | _, _ => None
  end.

Definition stepSendEnd (st : engine) : option engine :=
  match sender st, recv (textChan st) with
  | SendRunning, Some (None, _) => Some (setSender st SendDeferred)
  | _, _ => None
  end.

Definition stepSendDone (st : engine) : option engine :=
  match sender st with
  | SendRunning => if doneChan st then Some (setSender st SendDeferred) else None
  | _ => None
  end.

Definition stepSendStop (m w : option error) (st : engine) : option engine :=
  match sender st with
  | SendDeferred =>
      match m with
      | None => Some (setSender (writeMessage (closeEvent "stop") w st) SendExited)
      | Some _ => Some (setSender st SendExited)
      end
  | _ => None
  end.

(** The receive goroutine. *)
Definition stepRecv (st : engine) : option engine :=
  match receiver st, inboundQ st with
  | RecvRunning, i :: rest =>
      let st' := setInbound st rest in
      match i with
      | ReadFails e =>
          if IsCloseError e then Some (setReceiver st' RecvClosingDone)
          else Some (setReceiver (publish e st') RecvClosingDone)
      | Undecodable e =>
          Some (setReceiver (publish (Errorf "failed to decode response" e) st') RecvClosingDone)
      | Frame r =>
          if String.eqb (Event r) "audio" then
            if 0 <? length (Audio r) then
              match send (Audio r) (audioChan (stream st)) with
              | Some ch => Some (setAudioChan st' ch)
              | None => None
              end
            else Some st'
          else if String.eqb (Event r) "finish" then
            if String.eqb (Reason r) "error"
            then Some (setReceiver
                         (publish (WebSocketError "stream finished with error") st')
                         RecvClosingDone)
            else Some (setReceiver st' RecvClosingDone)
          else Some st'
      end
  | _, _ => None
  end.

Definition stepRecvCloseDone (st : engine) : option engine :=
  match receiver st with
  | RecvClosingDone => Some (setReceiver (setDone st true) RecvClosingConn)
  | _ => None
  end.

Definition stepRecvCloseConn (st : engine) : option engine :=
  match receiver st with
  | RecvClosingConn => Some (setReceiver (setConnCloses st (S (connCloses st))) RecvClosingAudio)
  | _ => None
  end.

Definition stepRecvCloseAudio (st : engine) : option engine :=
  match receiver st with
  | RecvClosingAudio =>
      Some (setReceiver (setAudioChan st (closeChan (audioChan (stream st)))) RecvExited)
  | _ => None
  end.

(** The caller.  An error handed to the caller (stored by [Next],
    returned by [Read]) is appended to the history [observed]. *)
Definition took (before after : WebSocketAudioStream) : list error :=
  if length (queue (errChan after)) <? length (queue (errChan before))
  then firstn 1 (queue (errChan before))
  else [].

Definition stepCallNext (p : pick) (st : engine) : option engine :=
  match caller st, WebSocketAudioStreamOps.Next p (stream st) with
  | Free, Some (_, s') =>
      Some (setObserved (setStream st s') (observed st ++ took (stream st) s'))
  | _, _ => None
  end.

Definition stepCallRead (k : nat) (p : pick) (st : engine) : option engine :=
  match caller st, WebSocketAudioStreamOps.Read k p (stream st) with
  | Free, Some (_, s') =>
      Some (setObserved (setStream st s') (observed st ++ took (stream st) s'))
  | _, _ => None
  end.

Definition stepCallClose (st : engine) : option engine :=
  match caller st with
  | Free => Some (setStream st (snd (WebSocketAudioStreamOps.Close (stream st))))
  | _ => None
  end.

Definition stepCallCollect (p : pick) (st : engine) : option engine :=
  let go acc :=
    match WebSocketAudioStreamOps.CollectIter p acc (stream st) with
    | Some (WebSocketAudioStreamOps.Looping acc', s') =>
        Some (setCaller (setObserved (setStream st s') (observed st ++ took (stream st) s'))
                (Collecting acc'))
    | Some (WebSocketAudioStreamOps.Returns res, s') =>
        Some (setCaller (setObserved (setStream st s') (observed st ++ took (stream st) s'))
                (Returned res))
    | None => None
    end in
  match caller st with
  | Free => go []
  | Collecting acc => go acc
  | Returned _ => None
  end.

Definition step (a : action) (st : engine) : option engine :=
  match a with
  | SendText m w => stepSendText m w st
  | SendEnd => stepSendEnd st
  | SendDone => stepSendDone st
  | SendStop m w => stepSendStop m w st
  | Recv => stepRecv st
  | RecvCloseDone => stepRecvCloseDone st
  | RecvCloseConn => stepRecvCloseConn st
  | RecvCloseAudio => stepRecvCloseAudio st
  | CallNext p => stepCallNext p st
  | CallRead k p => stepCallRead k p st
  | CallClose => stepCallClose st
  | CallCollect p => stepCallCollect p st
  end.

(** A schedule is run from left to right; [None] when a step of the
    schedule cannot be taken. *)
Fixpoint run (sched : list action) (st : engine) : option engine :=
  match sched with
  | [] => Some st
  | a :: sched' =>
      match step a st with
      | Some st' => run sched' st'
      | None => None
      end
  end.

(** ** Predicates on schedules and states used in the statements *)

(** The body of a stream is closed at most once, and only by a stream
    that is marked closed. *)
Definition closedOnce (s : AudioStream) : Prop :=
  AudioStreamOps.bodyCloses s <= (if closed s then 1 else 0).


(** The actions of the two goroutines. *)
Definition ofGoroutine (a : action) : bool :=
  match a with
  | CallNext _ | CallRead _ _ | CallClose | CallCollect _ => false
  | _ => true
  end.

(** The caller does not use [Read]. *)
Definition noRead (a : action) : bool :=
  match a with
  | CallRead _ _ => false
  | _ => true
  end.

(** How a step acts on the error queue and the two histories: not at
    all, by a publication, or by handing the oldest error to the
    caller. *)
Inductive errEffect (st st' : engine) : Prop :=
| ErrSame :
    errChan (stream st') = errChan (stream st) ->
    published st' = published st ->
    observed st' = observed st ->
    errEffect st st'
| ErrPublished e :
    errChan (stream st') = trySend e (errChan (stream st)) ->
    published st' = published st ++ [e] ->
    observed st' = observed st ->
    errEffect st st'
| ErrTaken x rest :
    queue (errChan (stream st)) = x :: rest ->
    errChan (stream st') =
      mkChan rest (capacity (errChan (stream st))) (isClosed (errChan (stream st))) ->
    published st' = published st ->
    observed st' = observed st ++ [x] ->
    errEffect st st'.

(** What a call of the caller does to the error queue. *)
Definition callEffect (s s' : WebSocketAudioStream) : Prop :=
  (errChan s' = errChan s /\ took s s' = []) \/
  (exists x rest, queue (errChan s) = x :: rest /\
                  errChan s' = mkChan rest (capacity (errChan s)) (isClosed (errChan s)) /\
                  took s s' = [x] /\ wsErr s' = Some x).

(** The error queue has one slot; until the caller has been handed an
    error the slot holds the first error published, and the first error
    handed to the caller is the first error published. *)
Definition oneSlot (st : engine) : Prop :=
  capacity (errChan (stream st)) = 1 /\
  length (queue (errChan (stream st))) <= 1 /\
  (observed st = [] -> queue (errChan (stream st)) = firstn 1 (published st)) /\
  (forall e, hd_error (observed st) = Some e -> hd_error (published st) = Some e).

(** The error stored in the stream is the one error handed to the
    caller, if any. *)
Definition oneError (st : engine) : Prop :=
  length (observed st) <= 1 /\ wsErr (stream st) = hd_error (observed st).


(** The steps of the send goroutine. *)
Definition ofSender (a : action) : bool :=
  match a with
  | SendText _ _ | SendEnd | SendDone | SendStop _ _ => true
  | _ => false
  end.




(** A schedule on which the send goroutine reports no failure and the
    caller does nothing but run [Collect]. *)
Definition calm (a : action) : bool :=
  match a with
  | SendText None None => true
  | SendText _ _ => false
  | CallNext _ | CallRead _ _ | CallClose => false
  | _ => true
  end.

(** An audio frame with a payload, and a finish frame with reason
    "stop". *)
Definition isAudio (r : wsResponse) : Prop := Event r = "audio" /\ Audio r <> [].

Definition isStop (r : wsResponse) : Prop := Event r = "finish" /\ Reason r = "stop".

(** While the audio frames [fs] and then the finish frame [fin] arrive:
    the frames split into those whose payload [Collect] has written,
    those queued in the audio channel and those still to be read. *)
Definition recvInv (fin : wsResponse) (rest : list inbound) (fr : list wsResponse)
    (st : engine) : Prop :=
  match receiver st with
  | RecvRunning =>
      inboundQ st = map Frame fr ++ Frame fin :: rest /\
      isClosed (audioChan (stream st)) = false
  | RecvExited => fr = [] /\ isClosed (audioChan (stream st)) = true
  | _ => fr = [] /\ isClosed (audioChan (stream st)) = false
  end.

Definition callInv (fs fa : list wsResponse) (st : engine) : Prop :=
  match caller st with
  | Free => fa = [] /\ wsClosed (stream st) = false
  | Collecting acc => acc = concat (map Audio fa) /\ wsClosed (stream st) = false
  | Returned res => res = (concat (map Audio fs), None)
  end.

Inductive collectInv (fs : list wsResponse) (fin : wsResponse) (rest : list inbound)
    (st : engine) : Prop :=
| CollectInv (fa fq fr : list wsResponse) :
    fs = fa ++ fq ++ fr ->
    queue (audioChan (stream st)) = map Audio fq ->
    capacity (audioChan (stream st)) = 100 ->
    errChan (stream st) = make 1 ->
    wsErr (stream st) = None ->
    recvInv fin rest fr st ->
    callInv fs fa st ->
    collectInv fs fin rest st.

(** What is left to do before [Collect] returns. *)
Definition toGo (st : engine) : nat :=
  match receiver st with
  | RecvRunning => 2 * length (inboundQ st) + 4
  | RecvClosingDone => 3
  | RecvClosingConn => 2
  | RecvClosingAudio => 1
  | RecvExited => 0
  end + length (queue (audioChan (stream st)))
  + match caller st with Returned _ => 0 | _ => 1 end.

(** ** API errors (errors.go) *)

Module APIError.
Record t : Type := mk { StatusCode : Z; Message : string; Body : string }.
End APIError.

(** The error types that embed [*APIError], and [*APIError] itself. *)
Inductive apiError : Type :=
| PlainAPIError (base : APIError.t)
| AuthenticationError (base : APIError.t)
| PermissionError (base : APIError.t)
| NotFoundError (base : APIError.t)
| RateLimitError (base : APIError.t)
| ValidationError (base : APIError.t)
| ServerError (base : APIError.t).

(** The embedded [*APIError]. *)
Definition baseOf (e : apiError) : APIError.t :=
  match e with
  | PlainAPIError x | AuthenticationError x | PermissionError x | NotFoundError x
  | RateLimitError x | ValidationError x | ServerError x => x
  end.

Definition newAPIError (statusCode : Z) (message body : string) : apiError :=
  let base := APIError.mk statusCode message body in
  if (statusCode =? 401)%Z then AuthenticationError base
  else if (statusCode =? 403)%Z then PermissionError base
  else if (statusCode =? 404)%Z then NotFoundError base
  else if (statusCode =? 422)%Z then ValidationError base
  else if (statusCode =? 429)%Z then RateLimitError base
  else if (500 <=? statusCode)%Z then ServerError base
  else PlainAPIError base.

(** ** Further predicates used in the statements *)

(** [&TTSConfig{}] *)
Definition zeroConfig : TTSConfig.t :=
  TTSConfig.mk "" "" 0 0 0 None 0 "" "" [] None PrimFloat.zero PrimFloat.zero.

(** The deferred calls of the receive goroutine have closed, in this
    order, [doneChan], the connection and the audio channel. *)
Definition shutdownOrder (st : engine) : Prop :=
  match receiver st with
  | RecvRunning | RecvClosingDone =>
      doneChan st = false /\ connCloses st = 0 /\ isClosed (audioChan (stream st)) = false
  | RecvClosingConn =>
      doneChan st = true /\ connCloses st = 0 /\ isClosed (audioChan (stream st)) = false
  | RecvClosingAudio =>
      doneChan st = true /\ connCloses st = 1 /\ isClosed (audioChan (stream st)) = false
  | RecvExited =>
      doneChan st = true /\ connCloses st = 1 /\ isClosed (audioChan (stream st)) = true
  end.

(** The audio channel holds at most 100 chunks, none of them empty. *)
Definition audioQueueInv (st : engine) : Prop :=
  capacity (audioChan (stream st)) = 100 /\
  length (queue (audioChan (stream st))) <= 100 /\
  Forall (fun c : bytes => c <> []) (queue (audioChan (stream st))).

(** No error that counts as an expected closure has been published,
    queued or handed to the caller. *)
Definition noExpectedClosure (st : engine) : Prop :=
  Forall (fun e => IsCloseError e = false) (published st) /\
  Forall (fun e => IsCloseError e = false) (queue (errChan (stream st))) /\
  Forall (fun e => IsCloseError e = false) (observed st).

(** What a call of the caller does to the audio channel: it may take
    the oldest chunk, and it changes neither capacity nor closedness. *)
Definition audioEffect (s s' : WebSocketAudioStream) : Prop :=
  capacity (audioChan s') = capacity (audioChan s) /\
  isClosed (audioChan s') = isClosed (audioChan s) /\
  (queue (audioChan s') = queue (audioChan s) \/
   exists c, queue (audioChan s) = c :: queue (audioChan s')).


(** Every error handed to the caller, and the error waiting in the
    slot, was published by one of the goroutines. *)
Definition reportedInv (st : engine) : Prop :=
  incl (observed st ++ queue (errChan (stream st))) (published st).



(** * Properties *)

Unset Implicit Arguments.

(** ** The response body *)

Lemma Body_Read_closes k r : closes (snd (Body_Read k r)) = closes r.
Proof.
  unfold Body_Read. destruct (pending r) as [|[d c] rest]; [reflexivity|].
  destruct (length d <=? k); reflexivity.
Qed.

Lemma Body_Read_short k r d c rest :
  pending r = (d, c) :: rest -> k < length d ->
  Body_Read k r = ((firstn k d, None), mkBody ((skipn k d, c) :: rest) (closeErr r) (closes r)).
Proof.
  intros Hp Hk. unfold Body_Read. rewrite Hp.
  destruct (Nat.leb_spec (length d) k); [lia|reflexivity].
Qed.

Lemma Body_Read_whole k r d c rest :
  pending r = (d, c) :: rest -> length d <= k ->
  Body_Read k r = ((d, c), mkBody rest (closeErr r) (closes r)).
Proof.
  intros Hp Hk. unfold Body_Read. rewrite Hp.
  destruct (Nat.leb_spec (length d) k); [reflexivity|lia].
Qed.

(** [copyLoop] with a buffer that is not empty and enough iterations
    reads exactly what the body delivers. *)
Lemma copyLoop_delivered k (Hk : 0 < k) :
  forall fuel p ce cl acc,
    weight p < fuel ->
    fst (copyLoop fuel k acc (mkBody p ce cl)) =
      (acc ++ fst (delivered p),
       if is_EOF (snd (delivered p)) then None else Some (snd (delivered p))).
Proof.
  induction fuel as [|fuel IH]; intros p ce cl acc Hw; [lia|].
  cbn [copyLoop]. unfold Body_Read. cbn [pending closeErr closes].
  destruct p as [|[d c] rest].
  - cbn. now rewrite app_nil_r.
  - cbn [weight] in Hw.
    destruct (Nat.leb_spec (length d) k) as [Hle|Hgt].
    + destruct c as [e|].
      * cbn. destruct (is_EOF e); reflexivity.
      * rewrite IH by lia. cbn [delivered].
        destruct (delivered rest) as [x e]. cbn. now rewrite app_assoc.
    + rewrite IH.
      * cbn [delivered]. destruct c as [e|].
        -- cbn. now rewrite <- app_assoc, firstn_skipn.
        -- destruct (delivered rest) as [x e]. cbn.
           now rewrite <- app_assoc, (app_assoc (firstn k d)), firstn_skipn.
      * cbn [weight]. rewrite length_skipn. lia.
Qed.

Lemma io_Copy_delivered r :
  fst (io_Copy r) =
    (fst (delivered (pending r)),
     if is_EOF (snd (delivered (pending r))) then None else Some (snd (delivered (pending r)))).
Proof.
  unfold io_Copy. destruct r as [p ce cl]. cbn [pending].
  rewrite copyLoop_delivered; [reflexivity|unfold copyBufSize; lia|lia].
Qed.

Lemma copyLoop_closes fuel k : forall acc r, closes (snd (copyLoop fuel k acc r)) = closes r.
Proof.
  induction fuel as [|fuel IH]; intros acc r; [reflexivity|].
  cbn [copyLoop]. pose proof (Body_Read_closes k r) as H.
  destruct (Body_Read k r) as [[d c] r']. cbn [snd] in H.
  destruct c as [e|]; [destruct (is_EOF e)|rewrite IH]; cbn; congruence.
Qed.

(** ** AudioStream *)

Section AudioStreamFacts.
Import AudioStreamOps.

Lemma AudioStream_Close_twice s : Close (snd (Close s)) = (None, snd (Close s)).
Proof.
  unfold Close at 2 3. destruct (closed s) eqn:Hc.
  - cbn. unfold Close. now rewrite Hc.
  - destruct (resp s) as [[[r|]]|]; reflexivity.
Qed.

Lemma Close_closed s : closed (snd (Close s)) = true.
Proof.
  unfold Close. destruct (closed s) eqn:Hc; [exact Hc|].
  destruct (resp s) as [[[r|]]|]; reflexivity.
Qed.

Lemma Close_closedOnce s : closedOnce s -> closedOnce (snd (Close s)).
Proof.
  unfold closedOnce, Close, bodyCloses, body.
  destruct (closed s) eqn:Hc; cbn [snd]; [now rewrite Hc|].
  destruct (resp s) as [[[r|]]|]; cbn; lia.
Qed.

Lemma Next_closedOnce s b' s' : closedOnce s -> Next s = Some (b', s') -> closedOnce s'.
Proof.
  unfold closedOnce, Next, bodyCloses. intros H.
  destruct (closed s) eqn:Hc; cbn [orb].
  - intros [= <- <-]. now rewrite Hc.
  - destruct (isSome (err s)); [intros [= <- <-]; now rewrite Hc|].
    destruct (body s) as [r|] eqn:Hb; [|discriminate].
    pose proof (Body_Read_closes (chunkSize s) r) as Hr.
    destruct (Body_Read (chunkSize s) r) as [[d c] r']. cbn [snd] in Hr.
    destruct c as [e|]; [destruct (is_EOF e)|]; intros [= <- <-]; cbn; lia.
Qed.

Lemma Read_closedOnce k s res s' : closedOnce s -> Read k s = Some (res, s') -> closedOnce s'.
Proof.
  unfold closedOnce, Read, bodyCloses. intros H.
  destruct (closed s) eqn:Hc.
  - intros [= <- <-]. now rewrite Hc.
  - destruct (body s) as [r|] eqn:Hb; [|discriminate].
    pose proof (Body_Read_closes k r) as Hr.
    destruct (Body_Read k r) as [res' r']. cbn [snd] in Hr.
    intros [= <- <-]. cbn. rewrite Hc. lia.
Qed.

Lemma Collect_closedOnce s res s' : closedOnce s -> Collect s = Some (res, s') -> closedOnce s'.
Proof.
  unfold Collect. intros H.
  destruct (body s) as [r|] eqn:Hb; [|discriminate].
  pose proof (copyLoop_closes (S (weight (pending r))) copyBufSize [] r) as Hr.
  fold (io_Copy r) in Hr.
  destruct (io_Copy r) as [[d c] r']. cbn [snd] in Hr.
  assert (Hs : closedOnce (snd (Close (setBody s r')))).
  { apply Close_closedOnce. revert H. unfold closedOnce, bodyCloses, setBody.
    rewrite Hb. cbn. now rewrite Hr. }
  destruct c; intros [= <- <-]; exact Hs.
Qed.

Lemma Collect_closed s res s' : Collect s = Some (res, s') -> closed s' = true.
Proof.
  unfold Collect. destruct (body s) as [r|]; [|discriminate].
  destruct (io_Copy r) as [[d c] r'].
  destruct c; intros [= <- <-]; apply Close_closed.
Qed.

Lemma runOp_closedOnce o s s' : closedOnce s -> runOp o s = Some s' -> closedOnce s'.
Proof.
  intros H. destruct o; cbn [runOp].
  - destruct (Next s) as [[b' s1]|] eqn:E; [|discriminate].
    intros [= <-]. eapply Next_closedOnce; eauto.
  - now intros [= <-].
  - now intros [= <-].
  - destruct (Collect s) as [[res s1]|] eqn:E; [|discriminate].
    intros [= <-]. eapply Collect_closedOnce; eauto.
  - intros [= <-]. now apply Close_closedOnce.
  - destruct (Read k s) as [[res s1]|] eqn:E; [|discriminate].
    intros [= <-]. eapply Read_closedOnce; eauto.
Qed.

Lemma runOps_closedOnce os : forall s s', closedOnce s -> runOps os s = Some s' -> closedOnce s'.
Proof.
  induction os as [|o os IH]; intros s s' H; cbn [runOps].
  - now intros [= <-].
  - destruct (runOp o s) as [s1|] eqn:E; [|discriminate].
    apply IH. eapply runOp_closedOnce; eauto.
Qed.

(** Whatever the caller does, the body is closed at most once. *)
Lemma body_closed_at_most_once os r s' :
  closes r = 0 ->
  runOps os (newAudioStream (mkResponse (Some r))) = Some s' ->
  bodyCloses s' <= 1.
Proof.
  intros Hr Hrun.
  assert (H : closedOnce s').
  { eapply runOps_closedOnce; [|exact Hrun]. unfold closedOnce, bodyCloses. cbn. lia. }
  unfold closedOnce in H. destruct (closed s'); lia.
Qed.

(** The first [Close] of a stream that is not marked closed closes the
    body once. *)
Lemma first_Close_closes_body s r :
  closed s = false -> body s = Some r ->
  bodyCloses (snd (Close s)) = S (closes r) /\ fst (Close s) = closeErr r.
Proof.
  unfold Close, bodyCloses, body. intros -> Hb.
  destruct (resp s) as [[[r0|]]|]; try discriminate.
  injection Hb as ->. now cbn.
Qed.

Lemma Read_reads_body k s r :
  closed s = false -> body s = Some r ->
  Read k s = Some (fst (Body_Read k r), setBody s (snd (Body_Read k r))).
Proof.
  unfold Read. intros -> ->. now destruct (Body_Read k r).
Qed.

Lemma Next_reads_body s r :
  closed s = false -> err s = None -> body s = Some r ->
  snd (fst (Body_Read (chunkSize s) r)) = None ->
  exists s', Next s = Some (true, s') /\
             buf s' = fst (fst (Body_Read (chunkSize s) r)) /\
             body s' = Some (snd (Body_Read (chunkSize s) r)).
Proof.
  unfold Next. intros -> -> -> Hc. cbn [orb isSome].
  destruct (Body_Read (chunkSize s) r) as [[d c] r']. cbn in Hc. subst c.
  eexists. split; [reflexivity|]. now cbn.
Qed.

(** Reading an arrival of a body in pieces of at most [k] bytes. *)
Lemma readN_reproduces k (Hk : 0 < k) :
  forall m d rest ce cl s,
    length d <= m ->
    closed s = false ->
    body s = Some (mkBody ((d, None) :: rest) ce cl) ->
    exists n pieces s',
      readN n k s = Some (pieces, s') /\
      concat pieces = d /\
      Forall (fun piece => length piece <= k) pieces /\
      closed s' = false /\
      body s' = Some (mkBody rest ce cl).
Proof.
  induction m as [|m IH]; intros d rest ce cl s Hm Hcl Hb.
  - destruct d; [|cbn in Hm; lia].
    exists 1, [[]], (setBody s (mkBody rest ce cl)).
    cbn [readN]. rewrite (Read_reads_body k s _ Hcl Hb). cbn.
    repeat split; auto. repeat constructor. cbn. lia.
  - destruct (Nat.leb_spec (length d) k) as [Hle|Hgt].
    + exists 1, [d], (setBody s (mkBody rest ce cl)).
      cbn [readN]. rewrite (Read_reads_body k s _ Hcl Hb).
      rewrite (Body_Read_whole k (mkBody ((d, None) :: rest) ce cl) d None rest eq_refl Hle).
      cbn. rewrite app_nil_r. repeat split; auto.
    + destruct (IH (skipn k d) rest ce cl
                  (setBody s (mkBody ((skipn k d, None) :: rest) ce cl)))
        as (n & pieces & s' & Hr & Hcat & Hall & Hc' & Hb').
      * rewrite length_skipn. lia.
      * exact Hcl.
      * reflexivity.
      * exists (S n), (firstn k d :: pieces), s'.
        cbn [readN]. rewrite (Read_reads_body k s _ Hcl Hb).
        rewrite (Body_Read_short k (mkBody ((d, None) :: rest) ce cl) d None rest eq_refl Hgt).
        cbn [fst snd closeErr closes]. rewrite Hr. cbn [concat]. rewrite Hcat, firstn_skipn.
        repeat split; auto. constructor; [|exact Hall].
        rewrite length_firstn. lia.
Qed.

End AudioStreamFacts.

Section DrainFacts.
Import AudioStreamOps.

Lemma is_EOF_true e : is_EOF e = true -> e = io_EOF.
Proof. now destruct e. Qed.

(** On a body that reports the end of its data on a read of its own,
    the chunk-by-chunk loop ends on the condition the body reports
    first and, when that is the end of the data, has handed over every
    byte. *)
Lemma drain_delivered cs (Hcs : 0 < cs) :
  forall fuel p ce cl acc bf,
    weight p < fuel ->
    eofAlone p ->
    exists out s',
      drain fuel acc (mkAudioStream (Some (mkResponse (Some (mkBody p ce cl)))) bf cs None false)
        = Some (acc ++ out, s') /\
      err s' = (if is_EOF (snd (delivered p)) then None else Some (snd (delivered p))) /\
      closed s' = is_EOF (snd (delivered p)) /\
      (is_EOF (snd (delivered p)) = true -> out = fst (delivered p)).
Proof.
  induction fuel as [|fuel IH]; intros p ce cl acc bf Hw Halone; [lia|].
  cbn [drain]. unfold Next. cbn [closed err isSome orb body resp Body chunkSize].
  unfold Body_Read. cbn [pending closeErr closes].
  destruct p as [|[d c] rest].
  - cbn. exists [], (mkAudioStream (Some (mkResponse (Some (mkBody [] ce cl))))
                       (filled cs []) cs None true).
    rewrite app_nil_r. repeat split.
  - cbn [weight] in Hw. inversion Halone as [|a l Ha Hrest]; subst. cbn [fst snd] in Ha.
    destruct (Nat.leb_spec (length d) cs) as [Hle|Hgt].
    + destruct c as [e|].
      * cbn [delivered fst snd]. destruct (is_EOF e) eqn:He.
        -- eexists [], _. rewrite app_nil_r. repeat split.
           intros _. symmetry. apply Ha. f_equal. now apply is_EOF_true.
        -- eexists [], _. rewrite app_nil_r. repeat split. discriminate.
      * cbn [Bytes buf].
        destruct (IH rest ce cl (acc ++ d) d) as (out & s' & Hd & He & Hc & Ho); [lia|auto|].
        exists (d ++ out), s'. rewrite Hd. cbn [delivered].
        destruct (delivered rest) as [x e]. cbn [fst snd] in *.
        rewrite app_assoc. repeat split; auto. intros H. now rewrite Ho.
    + cbn [Bytes buf].
      destruct (IH ((skipn cs d, c) :: rest) ce cl (acc ++ firstn cs d) (firstn cs d))
        as (out & s' & Hd & He & Hc & Ho).
      { cbn [weight]. rewrite length_skipn. lia. }
      { constructor; [|exact Hrest]. cbn [fst snd]. intros H.
        rewrite (Ha H) in Hgt. cbn in Hgt. lia. }
      exists (firstn cs d ++ out), s'. rewrite Hd. cbn [delivered] in *.
      destruct c as [e|].
      * cbn [fst snd] in *. rewrite app_assoc. repeat split; auto.
        intros H. rewrite (Ho H). apply firstn_skipn.
      * destruct (delivered rest) as [x e]. cbn [fst snd] in *.
        rewrite app_assoc. repeat split; auto.
        intros H. rewrite (Ho H). now rewrite app_assoc, firstn_skipn.
Qed.

(** On such a body [Collect] returns what the chunk-by-chunk loop hands
    over, or the error the loop stops with, and leaves the stream
    closed. *)
Lemma Collect_agrees_with_drain r cs bf :
  0 < cs -> eofAlone (pending r) ->
  let s := mkAudioStream (Some (mkResponse (Some r))) bf cs None false in
  exists out s1 res s2,
    drain (S (weight (pending r))) [] s = Some (out, s1) /\
    Collect s = Some (res, s2) /\
    snd res = Err s1 /\
    (Err s1 = None -> fst res = out) /\
    closed s2 = true.
Proof.
  intros Hcs Halone s. destruct r as [p ce cl]. cbn [pending] in *.
  destruct (drain_delivered cs Hcs (S (weight p)) p ce cl [] bf)
    as (out & s1 & Hd & He & _ & Ho); [lia|exact Halone|].
  destruct (Collect s) as [[res s2]|] eqn:Hcol.
  2:{ unfold Collect, s in Hcol. cbn [body resp Body] in Hcol.
      destruct (io_Copy (mkBody p ce cl)) as [[d c] r']. destruct c; discriminate. }
  exists out, s1, res, s2.
  split; [exact Hd|]. split; [reflexivity|].
  pose proof (Collect_closed _ _ _ Hcol) as Hcl.
  unfold Collect, s in Hcol. cbn [body resp Body] in Hcol.
  pose proof (io_Copy_delivered (mkBody p ce cl)) as Hio. cbn [pending] in Hio.
  destruct (io_Copy (mkBody p ce cl)) as [[d c] r']. cbn [fst] in Hio.
  injection Hio as Hd' Hc'. unfold Err. rewrite He.
  destruct (is_EOF (snd (delivered p))) eqn:Heof; subst c.
  - injection Hcol as <- _. cbn. repeat split; auto.
    intros _. rewrite Hd'. symmetry. now apply Ho.
  - injection Hcol as <- _. cbn. repeat split; auto. discriminate.
Qed.

End DrainFacts.

(** ** WebSocketAudioStream *)

Section WebSocketStreamFacts.
Import WebSocketAudioStreamOps.

Lemma WebSocket_Close_twice s : Close (snd (Close s)) = Close s.
Proof. reflexivity. Qed.

Lemma Next_after_Close p s : Next p (snd (Close s)) = Some (false, snd (Close s)).
Proof. reflexivity. Qed.

Lemma Read_from_buffer k p s :
  wsBuf s <> [] ->
  Read k p s = Some ((firstn k (wsBuf s), None),
                     mkWS (audioChan s) (errChan s) (skipn k (wsBuf s)) (wsErr s) (wsClosed s)).
Proof.
  intros H. unfold Read. destruct (wsBuf s); [congruence|reflexivity].
Qed.

Lemma skipn_short {A} k (l : list A) :
  (if length (firstn k l) <? length l then skipn k l else []) = skipn k l.
Proof.
  destruct (Nat.ltb_spec (length (firstn k l)) (length l)) as [H|H]; [reflexivity|].
  rewrite length_firstn in H. symmetry. apply skipn_all2. lia.
Qed.

Lemma Read_pulls_like_Next k p s :
  wsBuf s = [] -> wsClosed s = false -> wsErr s = None ->
  match Next p s with
  | None => Read k p s = None
  | Some (true, s') =>
      Read k p s = Some ((firstn k (wsBuf s'), None),
                         mkWS (audioChan s') (errChan s') (skipn k (wsBuf s')) None false)
  | Some (false, s') =>
      Read k p s = Some (([], if wsClosed s' then Some io_EOF else wsErr s'),
                         mkWS (audioChan s') (errChan s') [] (wsErr s') false)
  end.
Proof.
  intros Hb Hc He. unfold Next, Read. rewrite Hb, Hc, He.
  cbn [length orb isSome]. rewrite Nat.ltb_irrefl.
  destruct (selectRecv p s) as [[[chunk|] ch|e ch]|]; try reflexivity.
  cbn [wsBuf audioChan errChan wsErr wsClosed]. unfold bytes. now rewrite skipn_short.
Qed.

Lemma selectRecv_audio_only p s c rest :
  queue (audioChan s) = c :: rest -> queue (errChan s) = [] -> isClosed (errChan s) = false ->
  selectRecv p s =
    Some (FromAudio (Some c) (mkChan rest (capacity (audioChan s)) (isClosed (audioChan s)))).
Proof.
  intros Ha He Hc. unfold selectRecv, recv. now rewrite Ha, He, Hc.
Qed.

(** Reading the buffered chunk in pieces of at most [k] bytes. *)
Lemma readN_buffer k (Hk : 0 < k) p :
  forall m s,
    length (wsBuf s) <= m ->
    exists n pieces s',
      readN n k p s = Some (pieces, s') /\
      concat pieces = wsBuf s /\
      Forall (fun piece => length piece <= k) pieces /\
      s' = mkWS (audioChan s) (errChan s) [] (wsErr s) (wsClosed s).
Proof.
  induction m as [|m IH]; intros s Hm.
  - exists 0, [], s. destruct s as [a e bf er cl]. cbn in *.
    destruct bf; [|cbn in Hm; lia]. repeat split; constructor.
  - destruct (wsBuf s) as [|x bf] eqn:Hb.
    + exists 0, [], s. destruct s as [a e bf er cl]. cbn in *. subst bf.
      repeat split; constructor.
    + destruct (IH (mkWS (audioChan s) (errChan s) (skipn k (wsBuf s)) (wsErr s) (wsClosed s)))
        as (n & pieces & s' & Hr & Hcat & Hall & Hs').
      { cbn [wsBuf]. rewrite length_skipn, Hb. cbn [length] in *. lia. }
      exists (S n), (firstn k (wsBuf s) :: pieces), s'.
      cbn [readN]. rewrite Read_from_buffer by (rewrite Hb; discriminate).
      rewrite Hr. cbn [concat wsBuf] in *. rewrite Hcat, firstn_skipn.
      repeat split; auto.
      constructor; [rewrite length_firstn; lia|exact Hall].
Qed.

Lemma readN_chunk k (Hk : 0 < k) p s c rest :
  wsBuf s = [] -> queue (audioChan s) = c :: rest ->
  queue (errChan s) = [] -> isClosed (errChan s) = false ->
  exists n pieces s',
    readN n k p s = Some (pieces, s') /\
    concat pieces = c /\
    Forall (fun piece => length piece <= k) pieces /\
    wsBuf s' = [] /\
    queue (audioChan s') = rest /\
    errChan s' = errChan s.
Proof.
  intros Hb Ha He Hc.
  set (s1 := mkWS (mkChan rest (capacity (audioChan s)) (isClosed (audioChan s)))
               (errChan s) (skipn k c) (wsErr s) (wsClosed s)).
  assert (H1 : Read k p s = Some ((firstn k c, None), s1)).
  { unfold Read. rewrite Hb. cbn [length]. rewrite Nat.ltb_irrefl.
    rewrite (selectRecv_audio_only p s c rest Ha He Hc).
    unfold bytes. now rewrite skipn_short. }
  destruct (readN_buffer k Hk p (length (wsBuf s1)) s1 (le_n _))
    as (n & pieces & s' & Hr & Hcat & Hall & Hs').
  exists (S n), (firstn k c :: pieces), s'.
  cbn [readN]. rewrite H1, Hr. cbn [concat]. rewrite Hcat. cbn [wsBuf s1].
  rewrite firstn_skipn. subst s'. cbn.
  repeat split; auto. constructor; [rewrite length_firstn; lia|exact Hall].
Qed.

End WebSocketStreamFacts.

(** ** The claims about the two streams *)

(** C5.  Calling [Close] twice is the same as calling it once, on both
    streams, and no sequence of calls closes the response body twice.
    But the body is not closed once in every case: when iteration with
    [Next] has reached the end of the body, [Next] has marked the stream
    closed without closing the body, and the [Close] that follows
    returns at once.  Here a body of four bytes is read to its end by
    two calls of [Next], then [Close] is called: the stream is closed
    and the body has been closed zero times. *)
Theorem Close_after_iteration_leaves_body_open :
  let s := AudioStreamOps.newAudioStream (mkResponse (Some (bodyOf (b "data")))) in
  option_map (fun s' => (closed s', AudioStreamOps.bodyCloses s'))
    (AudioStreamOps.runOps
       [AudioStreamOps.OpNext; AudioStreamOps.OpNext; AudioStreamOps.OpClose] s)
  = Some (true, 0)
  /\ option_map (fun s' => (closed s', AudioStreamOps.bodyCloses s'))
       (AudioStreamOps.runOps [AudioStreamOps.OpClose; AudioStreamOps.OpClose] s)
     = Some (true, 1).
Proof. split; reflexivity. Qed.

(** C6.  [Collect] and the loop over [Next] and [Bytes] do not agree on
    every body.  A body may hand over its last bytes together with
    [io.EOF] in one read; [Next] looks at the error first and drops the
    bytes, [io.Copy] inside [Collect] keeps them.  Here the body
    delivers "abc" with [io.EOF]: the loop hands over nothing and ends
    without error, [Collect] returns "abc". *)
Theorem Collect_keeps_bytes_that_Next_drops :
  let s := AudioStreamOps.newAudioStream
             (mkResponse (Some (mkBody [(b "abc", Some io_EOF)] None 0))) in
  option_map (fun r => (fst r, AudioStreamOps.Err (snd r))) (AudioStreamOps.drain 2 [] s)
    = Some ([], None)
  /\ option_map fst (AudioStreamOps.Collect s) = Some (b "abc", None).
Proof. split; reflexivity. Qed.

(** C7.  For a buffer of [k > 0] bytes.  On the duplex stream, [Read]
    serves the buffered bytes first and leaves both channels alone; with
    nothing buffered it receives from the channels exactly as [Next]
    does; a chunk longer than the buffer gives a short read whose
    remainder is kept, and repeated reads give back the chunk.  On the
    single-response stream, [Read] is the read of the body that [Next]
    performs; a short buffer gives a short read whose remainder stays in
    the body, and repeated reads give back the bytes. *)
Theorem Read_serves_remainder_then_pulls (k : nat) (p : pick) :
  0 < k ->
  (forall s, wsBuf s <> [] ->
     WebSocketAudioStreamOps.Read k p s =
       Some ((firstn k (wsBuf s), None),
             mkWS (audioChan s) (errChan s) (skipn k (wsBuf s)) (wsErr s) (wsClosed s)))
  /\ (forall s, wsBuf s = [] -> wsClosed s = false -> wsErr s = None ->
        match WebSocketAudioStreamOps.Next p s with
        | None => WebSocketAudioStreamOps.Read k p s = None
        | Some (true, s') =>
            WebSocketAudioStreamOps.Read k p s =
              Some ((firstn k (wsBuf s'), None),
                    mkWS (audioChan s') (errChan s') (skipn k (wsBuf s')) None false)
        | Some (false, s') =>
            WebSocketAudioStreamOps.Read k p s =
              Some (([], if wsClosed s' then Some io_EOF else wsErr s'),
                    mkWS (audioChan s') (errChan s') [] (wsErr s') false)
        end)
  /\ (forall s c rest,
        wsBuf s = [] -> queue (audioChan s) = c :: rest ->
        queue (errChan s) = [] -> isClosed (errChan s) = false ->
        exists n pieces s',
          WebSocketAudioStreamOps.readN n k p s = Some (pieces, s') /\
          concat pieces = c /\
          Forall (fun piece => length piece <= k) pieces /\
          wsBuf s' = [] /\
          queue (audioChan s') = rest /\
          errChan s' = errChan s)
  /\ (forall s r, closed s = false -> AudioStreamOps.body s = Some r ->
        AudioStreamOps.Read k s =
          Some (fst (Body_Read k r), AudioStreamOps.setBody s (snd (Body_Read k r))))
  /\ (forall s r, closed s = false -> err s = None -> AudioStreamOps.body s = Some r ->
        chunkSize s = k -> snd (fst (Body_Read k r)) = None ->
        exists s', AudioStreamOps.Next s = Some (true, s') /\
                   AudioStreamOps.Read k s =
                     Some ((buf s', None), AudioStreamOps.setBody s (snd (Body_Read k r))) /\
                   AudioStreamOps.body s' = Some (snd (Body_Read k r)))
  /\ (forall s d c rest ce cl,
        closed s = false -> AudioStreamOps.body s = Some (mkBody ((d, c) :: rest) ce cl) ->
        k < length d ->
        AudioStreamOps.Read k s =
          Some ((firstn k d, None),
                AudioStreamOps.setBody s (mkBody ((skipn k d, c) :: rest) ce cl)))
  /\ (forall s d rest ce cl,
        closed s = false -> AudioStreamOps.body s = Some (mkBody ((d, None) :: rest) ce cl) ->
        exists n pieces s',
          AudioStreamOps.readN n k s = Some (pieces, s') /\
          concat pieces = d /\
          Forall (fun piece => length piece <= k) pieces /\
          closed s' = false /\
          AudioStreamOps.body s' = Some (mkBody rest ce cl)).
Proof.
  intros Hk. repeat apply conj.
  - intros s H. now apply Read_from_buffer.
  - intros s. apply Read_pulls_like_Next.
  - intros s c rest. now apply readN_chunk.
  - intros s r. apply Read_reads_body.
  - intros s r Hc He Hb Hcs Hn. subst k.
    destruct (Next_reads_body s r Hc He Hb Hn) as (s' & HN & Hbuf & Hbody).
    exists s'. repeat split; auto.
    rewrite (Read_reads_body (chunkSize s) s r Hc Hb).
    destruct (Body_Read (chunkSize s) r) as [[d c] r']. cbn in *. now subst.
  - intros s d c rest ce cl Hc Hb Hlt.
    rewrite (Read_reads_body k s _ Hc Hb).
    now rewrite (Body_Read_short k (mkBody ((d, c) :: rest) ce cl) d c rest eq_refl Hlt).
  - intros s d rest ce cl Hc Hb.
    now apply (readN_reproduces k Hk (length d) d rest ce cl s (le_n _)).
Qed.

(** The test of the repository: "hello world" read through a buffer of
    five bytes comes back as "hello", " worl", "d". *)
Lemma Read_serves_remainder_then_pulls_witness :
  0 < 5 /\
  exists n pieces s',
    WebSocketAudioStreamOps.readN n 5 PickAudio
      (mkWS (mkChan [b "hello world"] 2 true) (make 1) [] None false) = Some (pieces, s') /\
    concat pieces = b "hello world" /\
    Forall (fun piece => length piece <= 5) pieces /\
    wsBuf s' = [] /\
    queue (audioChan s') = [] /\
    errChan s' = make 1.
Proof.
  split; [lia|].
  exact (proj1 (proj2 (proj2 (Read_serves_remainder_then_pulls 5 PickAudio (le_S _ _ (le_S _ _ (le_S _ _ (le_S _ _ (le_n 1))))))))
           (mkWS (mkChan [b "hello world"] 2 true) (make 1) [] None false)
           (b "hello world") [] eq_refl eq_refl eq_refl eq_refl).
Defined.

(** C9.  On the same parameters, [Convert] returns what [Stream]
    followed by [Collect] on the stream returns: the error of [Stream]
    with no bytes when [Stream] fails, else the bytes and the error of
    [Collect]. *)
Theorem Convert_is_Stream_then_Collect
    (doRequest : string -> string -> ttsRequest.t -> option RequestOptions -> Response + error)
    (c : ConvertParams.t) (s : StreamParams.t) :
  sameParams c s ->
  Convert doRequest c =
    match Stream doRequest s with
    | inr e => Some ([], Some e)
    | inl stream => option_map fst (AudioStreamOps.Collect stream)
    end.
Proof.
  unfold sameParams. destruct s as [t m ri rs f l sp cfg]. cbn.
  intros (-> & -> & -> & -> & -> & -> & -> & ->). reflexivity.
Qed.

Lemma Convert_is_Stream_then_Collect_witness :
  let doRequest := fun (_ _ : string) (_ : ttsRequest.t) (_ : option RequestOptions) =>
                     inl (mkResponse (Some (bodyOf (b "fake audio data for convert")))) in
  let c := ConvertParams.mk "Hello" "" "" [] "" "" PrimFloat.zero None in
  let s := StreamParams.mk "Hello" "" "" [] "" "" PrimFloat.zero None in
  sameParams c s /\
  Convert doRequest c = Some (b "fake audio data for convert", None) /\
  Convert doRequest c =
    match Stream doRequest s with
    | inr e => Some ([], Some e)
    | inl stream => option_map fst (AudioStreamOps.Collect stream)
    end.
Proof.
  intros doRequest c s.
  assert (H : sameParams c s) by (repeat split).
  split; [exact H|]. split; [reflexivity|].
  exact (Convert_is_Stream_then_Collect doRequest c s H).
Defined.

(** ** The duplex engine: the error queue *)

Section ErrorQueue.
Import WebSocketAudioStreamOps.


(** An invariant of the steps holds after every run. *)
Lemma run_invariant (P : engine -> Prop) (ok : action -> bool) :
  (forall a st st', ok a = true -> P st -> step a st = Some st' -> P st') ->
  forall sched st st',
    forallb ok sched = true -> P st -> run sched st = Some st' -> P st'.
Proof.
  intros Hstep. induction sched as [|a sched IH]; intros st st' Hok HP; cbn.
  - now intros [= <-].
  - cbn in Hok. apply andb_prop in Hok as [Ha Hs].
    destruct (step a st) as [st1|] eqn:E; [|discriminate].
    apply IH; eauto.
Qed.

Lemma forallb_true {A} (l : list A) : forallb (fun _ => true) l = true.
Proof. induction l; auto. Qed.

Lemma selectRecv_cases p s sel :
  selectRecv p s = Some sel ->
  (exists c ch, sel = FromAudio c ch /\ recv (audioChan s) = Some (c, ch)) \/
  (exists e ch, sel = FromErr e ch /\ recv (errChan s) = Some (e, ch)).
Proof.
  unfold selectRecv.
  destruct (recv (audioChan s)) as [[c ch]|], (recv (errChan s)) as [[e ch']|];
    try destruct p; intros [= <-]; eauto.
Qed.

Lemma recv_cases {A} (ch : chan A) v ch' :
  recv ch = Some (v, ch') ->
  (exists x rest, queue ch = x :: rest /\ v = Some x /\
                  ch' = mkChan rest (capacity ch) (isClosed ch)) \/
  (queue ch = [] /\ isClosed ch = true /\ v = None /\ ch' = ch).
Proof.
  unfold recv. destruct (queue ch) as [|x rest] eqn:Hq.
  - destruct (isClosed ch); [|discriminate]. intros [= <- <-]. now right.
  - intros [= <- <-]. left. eauto.
Qed.

Lemma took_same s s' : errChan s' = errChan s -> took s s' = [].
Proof. unfold took. intros ->. now rewrite Nat.ltb_irrefl. Qed.

Lemma took_head s s' x rest :
  queue (errChan s) = x :: rest ->
  errChan s' = mkChan rest (capacity (errChan s)) (isClosed (errChan s)) ->
  took s s' = [x].
Proof.
  unfold took. intros -> ->. cbn [queue length].
  destruct (Nat.ltb_spec (length rest) (S (length rest))); [reflexivity|lia].
Qed.

Lemma Next_effect p s r s' :
  Next p s = Some (r, s') ->
  (errChan s' = errChan s /\ took s s' = [] /\ wsErr s' = wsErr s) \/
  (wsErr s = None /\
   exists x rest, queue (errChan s) = x :: rest /\
                  errChan s' = mkChan rest (capacity (errChan s)) (isClosed (errChan s)) /\
                  took s s' = [x] /\ wsErr s' = Some x).
Proof.
  unfold Next. destruct (wsClosed s) eqn:Hc; cbn [orb].
  { intros [= <- <-]. left. auto using took_same. }
  destruct (wsErr s) as [e0|] eqn:He; cbn [isSome].
  { intros [= <- <-]. left. auto using took_same. }
  destruct (selectRecv p s) as [sel|] eqn:Hsel; [|discriminate].
  apply selectRecv_cases in Hsel as [(c & ch & -> & Hr)|(e & ch & -> & Hr)].
  - destruct c; intros [= <- <-]; left; cbn; auto using took_same.
  - intros [= <- <-]. apply recv_cases in Hr as [(x & rest & Hq & -> & ->)|(Hq & Hcl & -> & ->)].
    + right. split; [reflexivity|]. exists x, rest. cbn. repeat split; auto.
      now apply took_head with (rest := rest).
    + left. cbn. auto using took_same.
Qed.

Lemma Read_effect k p s r s' : Read k p s = Some (r, s') -> callEffect s s'.
Proof.
  unfold Read, callEffect. destruct (0 <? length (wsBuf s)).
  { intros [= <- <-]. left. cbn. auto using took_same. }
  destruct (selectRecv p s) as [sel|] eqn:Hsel; [|discriminate].
  apply selectRecv_cases in Hsel as [(c & ch & -> & Hr)|(e & ch & -> & Hr)].
  - destruct c; intros [= <- <-]; left; cbn; auto using took_same.
  - intros [= <- <-]. apply recv_cases in Hr as [(x & rest & Hq & -> & ->)|(Hq & Hcl & -> & ->)].
    + right. exists x, rest. cbn. repeat split; auto.
      now apply took_head with (rest := rest).
    + left. cbn. auto using took_same.
Qed.

Lemma CollectIter_Next p acc s c s' :
  CollectIter p acc s = Some (c, s') -> exists r, Next p s = Some (r, s').
Proof.
  unfold CollectIter. destruct (Next p s) as [[[] s1]|]; [| |discriminate].
  - intros [= <- <-]. eauto.
  - destruct (wsErr s1); intros [= <- <-]; eauto.
Qed.

Lemma publish_effect e st : errEffect st (publish e st).
Proof. now apply ErrPublished with (e := e). Qed.

Ltac same := apply ErrSame; reflexivity.

(** Every step acts on the error queue in one of the three ways. *)
Lemma step_errEffect a st st' : step a st = Some st' -> errEffect st st'.
Proof.
  destruct a; cbn [step].
  - unfold stepSendText. destruct (sender st); try discriminate.
    destruct (recv (textChan st)) as [[[text|] ch]|]; try discriminate.
    destruct m as [e|]; [intros [= <-]; now apply ErrPublished with (e := Errorf "failed to marshal text event" e)|].
    destruct w as [e|]; intros [= <-];
      [now apply ErrPublished with (e := Errorf "failed to send text" e)|same].
  - unfold stepSendEnd. destruct (sender st); try discriminate.
    destruct (recv (textChan st)) as [[[text|] ch]|]; try discriminate.
    intros [= <-]. same.
  - unfold stepSendDone. destruct (sender st); try discriminate.
    destruct (doneChan st); try discriminate. intros [= <-]. same.
  - unfold stepSendStop. destruct (sender st); try discriminate.
    destruct m; intros [= <-]; same.
  - unfold stepRecv. destruct (receiver st); try discriminate.
    destruct (inboundQ st) as [|i rest]; try discriminate.
    destruct i as [e|e|r].
    + destruct (IsCloseError e); intros [= <-]; [same|now apply ErrPublished with (e := e)].
    + intros [= <-]. now apply ErrPublished with (e := Errorf "failed to decode response" e).
    + destruct (String.eqb (Event r) "audio").
      * destruct (0 <? length (Audio r)).
        -- destruct (send (Audio r) (audioChan (stream st))); [|discriminate].
           intros [= <-]. same.
        -- intros [= <-]. same.
      * destruct (String.eqb (Event r) "finish"); [|intros [= <-]; same].
        destruct (String.eqb (Reason r) "error"); intros [= <-];
          [now apply ErrPublished with (e := WebSocketError "stream finished with error")|same].
  - unfold stepRecvCloseDone. destruct (receiver st); try discriminate. intros [= <-]. same.
  - unfold stepRecvCloseConn. destruct (receiver st); try discriminate. intros [= <-]. same.
  - unfold stepRecvCloseAudio. destruct (receiver st); try discriminate. intros [= <-]. same.
  - unfold stepCallNext. destruct (caller st); try discriminate.
    destruct (Next p (stream st)) as [[r s']|] eqn:HN; [|discriminate].
    intros [= <-].
    apply Next_effect in HN as [(He & Ht & _)|(_ & x & rest & Hq & He & Ht & _)].
    + apply ErrSame; cbn; auto. rewrite Ht. apply app_nil_r.
    + apply ErrTaken with (x := x) (rest := rest); cbn; auto. now rewrite Ht.
  - unfold stepCallRead. destruct (caller st); try discriminate.
    destruct (Read k p (stream st)) as [[r s']|] eqn:HR; [|discriminate].
    intros [= <-].
    apply Read_effect in HR as [(He & Ht)|(x & rest & Hq & He & Ht & _)].
    + apply ErrSame; cbn; auto. rewrite Ht. apply app_nil_r.
    + apply ErrTaken with (x := x) (rest := rest); cbn; auto. now rewrite Ht.
  - unfold stepCallClose. destruct (caller st); try discriminate. intros [= <-]. same.
  - unfold stepCallCollect.
    assert (H : forall acc,
      match CollectIter p acc (stream st) with
      | Some (Looping acc', s') =>
          Some (setCaller (setObserved (setStream st s') (observed st ++ took (stream st) s'))
                  (Collecting acc'))
      | Some (Returns res, s') =>
          Some (setCaller (setObserved (setStream st s') (observed st ++ took (stream st) s'))
                  (Returned res))
      | None => None
      end = Some st' -> errEffect st st').
    { intros acc. destruct (CollectIter p acc (stream st)) as [[c s']|] eqn:HC; [|discriminate].
      destruct (CollectIter_Next _ _ _ _ _ HC) as [r HN].
      apply Next_effect in HN as [(He & Ht & _)|(_ & x & rest & Hq & He & Ht & _)].
      - destruct c; intros [= <-]; apply ErrSame; cbn; auto; rewrite Ht; apply app_nil_r.
      - destruct c; intros [= <-]; apply ErrTaken with (x := x) (rest := rest); cbn; auto;
          now rewrite Ht. }
    cbv zeta. destruct (caller st); [apply H|apply H|discriminate].
Qed.

Lemma firstn_1_app {A} (l : list A) x : l <> [] -> firstn 1 (l ++ [x]) = firstn 1 l.
Proof. destruct l; [congruence|reflexivity]. Qed.

Lemma hd_error_app {A} (l : list A) x e : hd_error l = Some e -> hd_error (l ++ [x]) = Some e.
Proof. destruct l; [discriminate|auto]. Qed.

Lemma oneSlot_step a st st' : oneSlot st -> step a st = Some st' -> oneSlot st'.
Proof.
  intros (Hcap & Hlen & Hslot & Hfirst) Hs. apply step_errEffect in Hs.
  unfold oneSlot.
  destruct Hs as [He Hp Ho|e He Hp Ho|x rest Hq He Hp Ho]; rewrite He, Hp, Ho.
  - auto.
  - unfold trySend, send. rewrite Hcap.
    destruct (queue (errChan (stream st))) as [|y q] eqn:Hq.
    + cbn. repeat split; auto.
      * intros Hobs. specialize (Hslot Hobs).
        destruct (published st); [reflexivity|discriminate].
      * intros e0 H0. now apply hd_error_app, Hfirst.
    + cbn in Hlen. destruct q; [|cbn in Hlen; lia]. cbn.
      rewrite Hq. repeat split; auto.
      * intros Hobs. specialize (Hslot Hobs).
        destruct (published st); [discriminate|exact Hslot].
      * intros e0 H0. now apply hd_error_app, Hfirst.
  - cbn. rewrite Hq in Hlen. cbn in Hlen. repeat split; auto; try lia.
    + intros E. now apply app_eq_nil in E as [_ E].
    + intros e0. destruct (observed st) as [|o os] eqn:Hobs.
      * cbn. intros [= <-]. specialize (Hslot eq_refl). rewrite Hq in Hslot.
        destruct (published st); [discriminate|]. cbn in Hslot. now injection Hslot as <-.
      * cbn. intros H0. apply Hfirst. exact H0.
Qed.

Lemma oneError_step a st st' :
  noRead a = true -> oneError st -> step a st = Some st' -> oneError st'.
Proof.
  intros Hnr (Hlen & Herr).
  assert (Hcall : forall p r s', Next p (stream st) = Some (r, s') ->
            length (observed st ++ took (stream st) s') <= 1 /\
            wsErr s' = hd_error (observed st ++ took (stream st) s')).
  { intros p r s' HN.
    apply Next_effect in HN as [(_ & Ht & Hw)|(Hw & x & rest & _ & _ & Ht & Hw')].
    - rewrite Ht, app_nil_r, Hw. auto.
    - rewrite Hw in Herr. destruct (observed st); [|discriminate].
      rewrite Ht, Hw'. cbn. auto. }
  assert (Hkeep : forall st1, observed st1 = observed st -> wsErr (stream st1) = wsErr (stream st) ->
            oneError st1).
  { intros st1 Ho Hw. unfold oneError. now rewrite Ho, Hw. }
  destruct a; cbn [step]; try discriminate Hnr.
  - unfold stepSendText. destruct (sender st); try discriminate.
    destruct (recv (textChan st)) as [[[text|] ch]|]; try discriminate.
    destruct m as [e|]; [intros [= <-]; now apply Hkeep|].
    destruct w as [e|]; intros [= <-]; now apply Hkeep.
  - unfold stepSendEnd. destruct (sender st); try discriminate.
    destruct (recv (textChan st)) as [[[text|] ch]|]; try discriminate.
    intros [= <-]. now apply Hkeep.
  - unfold stepSendDone. destruct (sender st); try discriminate.
    destruct (doneChan st); try discriminate. intros [= <-]. now apply Hkeep.
  - unfold stepSendStop. destruct (sender st); try discriminate.
    destruct m; intros [= <-]; now apply Hkeep.
  - unfold stepRecv. destruct (receiver st); try discriminate.
    destruct (inboundQ st) as [|i rest]; try discriminate.
    destruct i as [e|e|r].
    + destruct (IsCloseError e); intros [= <-]; now apply Hkeep.
    + intros [= <-]. now apply Hkeep.
    + destruct (String.eqb (Event r) "audio").
      * destruct (0 <? length (Audio r)).
        -- destruct (send (Audio r) (audioChan (stream st))); [|discriminate].
           intros [= <-]. now apply Hkeep.
        -- intros [= <-]. now apply Hkeep.
      * destruct (String.eqb (Event r) "finish"); [|intros [= <-]; now apply Hkeep].
        destruct (String.eqb (Reason r) "error"); intros [= <-]; now apply Hkeep.
  - unfold stepRecvCloseDone. destruct (receiver st); try discriminate.
    intros [= <-]. now apply Hkeep.
  - unfold stepRecvCloseConn. destruct (receiver st); try discriminate.
    intros [= <-]. now apply Hkeep.
  - unfold stepRecvCloseAudio. destruct (receiver st); try discriminate.
    intros [= <-]. now apply Hkeep.
  - unfold stepCallNext. destruct (caller st); try discriminate.
    destruct (Next p (stream st)) as [[r s']|] eqn:HN; [|discriminate].
    intros [= <-]. exact (Hcall _ _ _ HN).
  - unfold stepCallClose. destruct (caller st); try discriminate.
    intros [= <-]. now apply Hkeep.
  - unfold stepCallCollect.
    assert (H : forall acc,
      match CollectIter p acc (stream st) with
      | Some (Looping acc', s') =>
          Some (setCaller (setObserved (setStream st s') (observed st ++ took (stream st) s'))
                  (Collecting acc'))
      | Some (Returns res, s') =>
          Some (setCaller (setObserved (setStream st s') (observed st ++ took (stream st) s'))
                  (Returned res))
      | None => None
      end = Some st' -> oneError st').
    { intros acc. destruct (CollectIter p acc (stream st)) as [[c s']|] eqn:HC; [|discriminate].
      destruct (CollectIter_Next _ _ _ _ _ HC) as [r HN].
      destruct c; intros [= <-]; exact (Hcall _ _ _ HN). }
    cbv zeta. destruct (caller st); [apply H|apply H|discriminate].
Qed.

(** A goroutine never waits for the error queue: whether one of its
    steps can be taken does not depend on what the queue holds. *)
Lemma goroutine_never_waits_for_errChan a st ec :
  ofGoroutine a = true ->
  isSome (step a (setErrChan st ec)) = isSome (step a st).
Proof.
  intros Ha. destruct a; try discriminate Ha; cbn [step].
  - unfold stepSendText. cbn. destruct (sender st); try reflexivity.
    destruct (recv (textChan st)) as [[[text|] ch]|]; try reflexivity.
    destruct m; [reflexivity|]. destruct w; reflexivity.
  - unfold stepSendEnd. cbn. destruct (sender st); try reflexivity.
    destruct (recv (textChan st)) as [[[text|] ch]|]; reflexivity.
  - unfold stepSendDone. cbn. destruct (sender st); try reflexivity.
    destruct (doneChan st); reflexivity.
  - unfold stepSendStop. cbn. destruct (sender st); try reflexivity.
    destruct m; reflexivity.
  - unfold stepRecv. cbn.
    repeat match goal with
           | |- context [match ?x with _ => _ end] => destruct x
           end; reflexivity.
  - unfold stepRecvCloseDone. cbn. destruct (receiver st); reflexivity.
  - unfold stepRecvCloseConn. cbn. destruct (receiver st); reflexivity.
  - unfold stepRecvCloseAudio. cbn. destruct (receiver st); reflexivity.
Qed.

Lemma publish_on_full_slot e st :
  length (queue (errChan (stream st))) = capacity (errChan (stream st)) ->
  errChan (stream (publish e st)) = errChan (stream st).
Proof.
  intros H. cbn. unfold trySend, send. rewrite H, Nat.ltb_irrefl. reflexivity.
Qed.

End ErrorQueue.


Section ErrorReports.
Import WebSocketAudioStreamOps.

Lemma reportedInv_step a st st' :
  reportedInv st -> step a st = Some st' -> reportedInv st'.
Proof.
  intros H Hs. apply step_errEffect in Hs. unfold reportedInv in *.
  destruct Hs as [He Hp Ho|e He Hp Ho|x rest Hq He Hp Ho]; rewrite He, Hp, Ho.
  - exact H.
  - unfold trySend, send.
    destruct (length (queue (errChan (stream st))) <? capacity (errChan (stream st)));
      cbn [queue].
    + rewrite app_assoc. apply incl_app; [now apply incl_appl|].
      apply incl_appr, incl_refl.
    + now apply incl_appl.
  - rewrite Hq in H. cbn [queue]. now rewrite <- app_assoc.
Qed.

(** A caller that chooses the error case is handed the error in the
    slot. *)
Lemma Next_takes_queued_error s e rest :
  wsClosed s = false -> wsErr s = None -> queue (errChan s) = e :: rest ->
  exists s', Next PickErr s = Some (false, s') /\ Err s' = Some e /\
             queue (errChan s') = rest.
Proof.
  intros Hc He Hq. unfold Next, selectRecv, recv. rewrite Hc, He, Hq. cbn [orb isSome].
  destruct (queue (audioChan s)); [destruct (isClosed (audioChan s))|];
    eexists; repeat split.
Qed.

Lemma Read_takes_queued_error k s e rest :
  wsBuf s = [] -> queue (errChan s) = e :: rest ->
  exists s', Read k PickErr s = Some (([], Some e), s') /\ Err s' = Some e /\
             queue (errChan s') = rest.
Proof.
  intros Hb Hq. unfold Read, selectRecv, recv. rewrite Hb, Hq. cbn [length Nat.ltb Nat.leb].
  destruct (queue (audioChan s)); [destruct (isClosed (audioChan s))|];
    eexists; repeat split.
Qed.

End ErrorReports.

(** C10 fails as stated: the engine does not keep to one error per
    stream, and the error the caller ends with need not be the first
    one published.  [Read] does not look at the error the stream has
    recorded, and an error taken from the slot frees it.  Here the
    write of the fragment fails and the error is published; the caller
    is handed it by [Read]; then the server finishes with reason
    "error", which is published into the free slot; a second [Read]
    hands the caller this second error and overwrites the recorded
    one. *)
Lemma Read_is_handed_a_second_error :
  exists st0 st,
    StreamWebSocket (mkHandshake None None None [Frame (mkResp "finish" [] "error")])
      (mkChan ["x"] 1 false) None None = Running st0 /\
    run [SendText None (Some (TransportError "broken pipe")); CallRead 4 PickErr;
         Recv; CallRead 4 PickErr] st0 = Some st /\
    published st = [Errorf "failed to send text" (TransportError "broken pipe");
                    WebSocketError "stream finished with error"] /\
    observed st = [Errorf "failed to send text" (TransportError "broken pipe");
                   WebSocketError "stream finished with error"] /\
    WebSocketAudioStreamOps.Err (stream st)
      = Some (WebSocketError "stream finished with error").
Proof.
  match eval vm_compute in
    (StreamWebSocket (mkHandshake None None None [Frame (mkResp "finish" [] "error")])
       (mkChan ["x"] 1 false) None None) with
  | Running ?s0 =>
      exists s0;
      match eval vm_compute in
        (run [SendText None (Some (TransportError "broken pipe")); CallRead 4 PickErr;
              Recv; CallRead 4 PickErr] s0) with
      | Some ?s1 => exists s1
      end
  end.
  repeat split; vm_compute; reflexivity.
Qed.

(** C10, amended.  The error queue of a running engine has one slot
    and never holds more than one error.  Whether a step of either
    goroutine can be taken does not depend on what the queue holds, so
    reporting an error never blocks; an error published while the slot
    is taken leaves the queue as it was and is lost.  Every error
    handed to the caller was published.  Until the caller has been
    handed an error the slot holds the first error published, a caller
    that then chooses the error case is handed exactly that error by
    [Next] or by [Read], which frees the slot, and the first error
    handed to the caller is the first error published.  A caller that does not use [Read] is
    handed at most one error, which is the one [Err] returns. *)
Theorem error_queue_keeps_first_error env tc params opts st0 sched st :
  StreamWebSocket env tc params opts = Running st0 ->
  run sched st0 = Some st ->
  capacity (errChan (stream st)) = 1 /\
  length (queue (errChan (stream st))) <= 1 /\
  (forall a ec, ofGoroutine a = true ->
     isSome (step a (setErrChan st ec)) = isSome (step a st)) /\
  (forall e, length (queue (errChan (stream st))) = 1 ->
     errChan (stream (publish e st)) = errChan (stream st)) /\
  incl (observed st) (published st) /\
  (observed st = [] -> queue (errChan (stream st)) = firstn 1 (published st)) /\
  (forall e, observed st = [] -> hd_error (published st) = Some e ->
     (wsClosed (stream st) = false -> wsErr (stream st) = None ->
      exists s', WebSocketAudioStreamOps.Next PickErr (stream st) = Some (false, s') /\
                 WebSocketAudioStreamOps.Err s' = Some e /\
                 queue (errChan s') = []) /\
     (forall k, wsBuf (stream st) = [] ->
      exists s', WebSocketAudioStreamOps.Read k PickErr (stream st)
                   = Some (([], Some e), s') /\
                 WebSocketAudioStreamOps.Err s' = Some e /\
                 queue (errChan s') = [])) /\
  (forall e, hd_error (observed st) = Some e -> hd_error (published st) = Some e) /\
  (forallb noRead sched = true ->
     length (observed st) <= 1 /\
     WebSocketAudioStreamOps.Err (stream st) = hd_error (observed st)).
Proof.
  intros Hstart Hrun.
  assert (H0 : oneSlot st0 /\ oneError st0 /\ reportedInv st0).
  { unfold StreamWebSocket in Hstart.
    destruct (dial env); [discriminate|].
    destruct (startMarshal env); [discriminate|].
    destruct (startWrite env); [discriminate|].
    injection Hstart as <-. unfold oneSlot, oneError, reportedInv. cbn.
    repeat split; auto. apply incl_refl. }
  destruct H0 as (Hslot0 & Herr0 & Hrep0).
  assert (Hslot : oneSlot st).
  { apply (run_invariant oneSlot (fun _ => true)) with (sched := sched) (st := st0); auto.
    - intros a s s' _. apply oneSlot_step.
    - apply forallb_true. }
  assert (Hrep : reportedInv st).
  { apply (run_invariant reportedInv (fun _ => true)) with (sched := sched) (st := st0); auto.
    - intros a s s' _. apply reportedInv_step.
    - apply forallb_true. }
  destruct Hslot as (Hcap & Hlen & Hs & Hf).
  split; [exact Hcap|]. split; [exact Hlen|].
  split; [intros a ec; apply goroutine_never_waits_for_errChan|].
  split; [intros e H1; apply publish_on_full_slot; now rewrite Hcap|].
  split; [exact (fun x Hx => Hrep x (in_or_app _ _ x (or_introl Hx)))|].
  split; [exact Hs|].
  split.
  { intros e Hobs Hhd.
    assert (Hq : queue (errChan (stream st)) = [e]).
    { rewrite (Hs Hobs). destruct (published st) as [|x l]; [discriminate|].
      injection Hhd as ->. reflexivity. }
    split.
    - intros Hc He.
      destruct (Next_takes_queued_error (stream st) e [] Hc He Hq) as (s' & HN & HE & HQ).
      exists s'. auto.
    - intros k Hb.
      destruct (Read_takes_queued_error k (stream st) e [] Hb Hq) as (s' & HR & HE & HQ).
      exists s'. auto. }
  split; [exact Hf|].
  intros Hnr. apply (run_invariant oneError noRead oneError_step sched st0 st Hnr Herr0 Hrun).
Qed.

(** A failed write of a fragment, then an error finish from the server:
    the caller is handed the first of the two errors. *)
Lemma error_queue_keeps_first_error_witness :
  let env := mkHandshake None None None [Frame (mkResp "finish" [] "error")] in
  let sched := [SendText None (Some (TransportError "broken pipe")); Recv;
                CallCollect PickErr] in
  exists st0 st,
    StreamWebSocket env (mkChan ["x"] 1 false) None None = Running st0 /\
    run sched st0 = Some st /\
    published st = [Errorf "failed to send text" (TransportError "broken pipe");
                    WebSocketError "stream finished with error"] /\
    observed st = [Errorf "failed to send text" (TransportError "broken pipe")] /\
    capacity (errChan (stream st)) = 1 /\
    (forall e, hd_error (observed st) = Some e -> hd_error (published st) = Some e) /\
    WebSocketAudioStreamOps.Err (stream st) = hd_error (observed st).
Proof.
  intros env sched.
  match eval vm_compute in (StreamWebSocket env (mkChan ["x"] 1 false) None None) with
  | Running ?s0 =>
      exists s0;
      match eval vm_compute in (run sched s0) with
      | Some ?s1 => exists s1
      end
  end.
  match goal with
  | |- ?A /\ ?B /\ _ =>
      assert (H0 : A) by (vm_compute; reflexivity);
      assert (H1 : B) by (vm_compute; reflexivity)
  end.
  split; [exact H0|]. split; [exact H1|].
  split; [vm_compute; reflexivity|]. split; [vm_compute; reflexivity|].
  pose proof (error_queue_keeps_first_error env (mkChan ["x"] 1 false) None None _ sched _
                H0 H1) as (Hcap & _ & _ & _ & _ & _ & _ & Hfirst & Hone).
  split; [exact Hcap|]. split; [exact Hfirst|].
  exact (proj2 (Hone ltac:(vm_compute; reflexivity))).
Defined.

(** ** The duplex engine: the send goroutine *)

Section SendPath.






End SendPath.

Section SendPathUndisturbed.




(** Only the receive goroutine closes the connection. *)
Lemma only_receiver_closes_conn a st st' :
  step a st = Some st' -> a <> RecvCloseConn -> connCloses st' = connCloses st.
Proof.
  destruct a; cbn [step]; intros Hstep Hne; try congruence.
  - unfold stepSendText in Hstep. destruct (sender st); try discriminate.
    destruct (recv (textChan st)) as [[[text|] ch]|]; try discriminate.
    destruct m; [now injection Hstep as <-|]. destruct w; now injection Hstep as <-.
  - unfold stepSendEnd in Hstep. destruct (sender st); try discriminate.
    destruct (recv (textChan st)) as [[[text|] ch]|]; try discriminate.
    now injection Hstep as <-.
  - unfold stepSendDone in Hstep. destruct (sender st); try discriminate.
    destruct (doneChan st); try discriminate. now injection Hstep as <-.
  - unfold stepSendStop in Hstep. destruct (sender st); try discriminate.
    destruct m; now injection Hstep as <-.
  - revert Hstep. unfold stepRecv. destruct (receiver st); try discriminate.
    destruct (inboundQ st) as [|i rest]; try discriminate.
    destruct i as [e|e|r].
    + destruct (IsCloseError e); now intros [= <-].
    + now intros [= <-].
    + destruct (String.eqb (Event r) "audio").
      * destruct (0 <? length (Audio r)).
        -- destruct (send (Audio r) (audioChan (stream st))); [|discriminate].
           now intros [= <-].
        -- now intros [= <-].
      * destruct (String.eqb (Event r) "finish"); [|now intros [= <-]].
        destruct (String.eqb (Reason r) "error"); now intros [= <-].
  - unfold stepRecvCloseDone in Hstep. destruct (receiver st); try discriminate.
    now injection Hstep as <-.
  - unfold stepRecvCloseAudio in Hstep. destruct (receiver st); try discriminate.
    now injection Hstep as <-.
  - unfold stepCallNext in Hstep. destruct (caller st); try discriminate.
    destruct (WebSocketAudioStreamOps.Next p (stream st)) as [[r s']|]; [|discriminate].
    now injection Hstep as <-.
  - unfold stepCallRead in Hstep. destruct (caller st); try discriminate.
    destruct (WebSocketAudioStreamOps.Read k p (stream st)) as [[r s']|]; [|discriminate].
    now injection Hstep as <-.
  - unfold stepCallClose in Hstep. destruct (caller st); try discriminate.
    now injection Hstep as <-.
  - revert Hstep. unfold stepCallCollect. cbv zeta.
    destruct (caller st); try discriminate;
      match goal with
      | |- match ?c with _ => _ end = _ -> _ => destruct c as [[[acc'|res] s']|]
      end; try discriminate; now intros [= <-].
Qed.

End SendPathUndisturbed.


Section SendProgress.








End SendProgress.



(** ** The duplex engine: encoding failures and unknown frames *)

(** C4 fails as stated for the start event: when the start event
    cannot be encoded, [StreamWebSocket] itself closes the connection
    and returns the error; no stream, no error queue and no goroutine
    exist. *)
Lemma start_encode_failure_is_returned :
  StreamWebSocket
    (mkHandshake None (Some (TransportError "msgpack: unsupported type")) None [])
    (mkChan [] 0 true) None None
  = Failed (Errorf "failed to marshal start event"
              (TransportError "msgpack: unsupported type")) 1 [].
Proof. reflexivity. Qed.

(** C4, amended.  When the connection is open and the start event
    cannot be encoded, [StreamWebSocket] closes the connection and
    returns the wrapped error, with nothing written.  When a fragment
    cannot be encoded, the send goroutine publishes the wrapped error by
    the same non-blocking publication that the receive goroutine uses
    for a failed read, writes nothing for the fragment, and is left
    with its deferred stop event as its only step; no step of the send
    goroutine closes the connection. *)
Theorem encode_failures (e : error) :
  (forall env tc params opts,
     dial env = None -> startMarshal env = Some e ->
     StreamWebSocket env tc params opts
       = Failed (Errorf "failed to marshal start event" e) 1 []) /\
  (forall st text rest w,
     sender st = SendRunning -> queue (textChan st) = text :: rest ->
     exists st',
       step (SendText (Some e) w) st = Some st' /\
       st' = setSender
               (publish (Errorf "failed to marshal text event" e)
                  (setTextChan st (mkChan rest (capacity (textChan st))
                                     (isClosed (textChan st)))))
               SendDeferred /\
       written st' = written st /\
       connCloses st' = connCloses st /\
       (forall a st'', ofSender a = true -> step a st' = Some st'' ->
          exists m w', a = SendStop m w' /\ sender st'' = SendExited)) /\
  (forall st rest,
     receiver st = RecvRunning -> inboundQ st = ReadFails e :: rest ->
     IsCloseError e = false ->
     step Recv st = Some (setReceiver (publish e (setInbound st rest)) RecvClosingDone)) /\
  (forall a st st', ofSender a = true -> step a st = Some st' ->
     connCloses st' = connCloses st).
Proof.
  split; [|split; [|split]].
  - intros env tc params opts Hd Hm. unfold StreamWebSocket. now rewrite Hd, Hm.
  - intros st text rest w Hs Hq. eexists. split; [|split; [reflexivity|]].
    + cbn [step]. unfold stepSendText, recv. rewrite Hs, Hq. reflexivity.
    + split; [reflexivity|]. split; [reflexivity|].
      intros a st'' Ha. destruct a; try discriminate Ha; cbn [step].
      * unfold stepSendText. cbn [sender setSender]. discriminate.
      * unfold stepSendEnd. cbn [sender setSender]. discriminate.
      * unfold stepSendDone. cbn [sender setSender]. discriminate.
      * unfold stepSendStop. cbn [sender setSender].
        destruct m; intros [= <-]; eauto.
  - intros st rest Hr Hq Hc. cbn [step]. unfold stepRecv. now rewrite Hr, Hq, Hc.
  - intros a st st' Ha Hstep. apply (only_receiver_closes_conn a st st' Hstep).
    intros ->. discriminate Ha.
Qed.

Lemma encode_failures_witness :
  exists st0 st',
    StreamWebSocket (mkHandshake None None None []) (mkChan ["Hello"] 1 true) None None
      = Running st0 /\
    step (SendText (Some (TransportError "msgpack: unsupported type")) None) st0 = Some st' /\
    queue (errChan (stream st')) =
      [Errorf "failed to marshal text event" (TransportError "msgpack: unsupported type")] /\
    written st' = written st0 /\
    connCloses st' = 0.
Proof.
  match eval vm_compute in
    (StreamWebSocket (mkHandshake None None None []) (mkChan ["Hello"] 1 true) None None) with
  | Running ?s0 =>
      exists s0;
      destruct (proj1 (proj2 (encode_failures (TransportError "msgpack: unsupported type")))
                  s0 "Hello" [] None eq_refl eq_refl)
        as (st' & Hstep & Hst' & Hw & Hc & _)
  end.
  exists st'. split; [vm_compute; reflexivity|]. split; [exact Hstep|].
  split; [rewrite Hst'; vm_compute; reflexivity|].
  split; [exact Hw|exact Hc].
Defined.

(** C3 fails as stated: a frame that decodes but carries an event the
    receive loop does not know is skipped.  Here the server sends a
    "ping" event, an audio frame and a stop finish: no error is
    published and [Collect] returns the audio with a nil error. *)
Lemma unknown_event_is_not_an_error :
  exists st0 st,
    StreamWebSocket
      (mkHandshake None None None
         [Frame (mkResp "ping" [] ""); Frame (mkResp "audio" (b "x") "");
          Frame (mkResp "finish" [] "stop")])
      (mkChan [] 0 true) None None = Running st0 /\
    run [Recv; Recv; Recv; RecvCloseDone; RecvCloseConn; RecvCloseAudio;
         CallCollect PickAudio; CallCollect PickAudio] st0 = Some st /\
    published st = [] /\
    caller st = Returned (b "x", None).
Proof.
  match eval vm_compute in
    (StreamWebSocket
      (mkHandshake None None None
         [Frame (mkResp "ping" [] ""); Frame (mkResp "audio" (b "x") "");
          Frame (mkResp "finish" [] "stop")])
      (mkChan [] 0 true) None None) with
  | Running ?s0 =>
      exists s0;
      match eval vm_compute in
        (run [Recv; Recv; Recv; RecvCloseDone; RecvCloseConn; RecvCloseAudio;
              CallCollect PickAudio; CallCollect PickAudio] s0) with
      | Some ?s1 => exists s1
      end
  end.
  repeat split; vm_compute; reflexivity.
Qed.

(** C3, amended.  A frame that does not decode ends the receive loop
    with the decoding error published.  A frame that decodes and whose
    event is neither "audio" nor "finish", and an audio frame with
    an empty payload, are skipped: the receive loop goes on to the next
    frame, nothing is delivered and nothing is published. *)
Theorem undecodable_fails_unknown_is_skipped st rest :
  receiver st = RecvRunning ->
  (forall e, inboundQ st = Undecodable e :: rest ->
     step Recv st =
       Some (setReceiver (publish (Errorf "failed to decode response" e) (setInbound st rest))
               RecvClosingDone)) /\
  (forall r, inboundQ st = Frame r :: rest ->
     (Event r <> "audio" /\ Event r <> "finish") \/ (Event r = "audio" /\ Audio r = []) ->
     step Recv st = Some (setInbound st rest)).
Proof.
  intros Hr. split.
  - intros e Hq. cbn [step]. unfold stepRecv. now rewrite Hr, Hq.
  - intros r Hq H. cbn [step]. unfold stepRecv. rewrite Hr, Hq.
    destruct H as [[Ha Hf]|[Ha Hp]].
    + apply String.eqb_neq in Ha, Hf. now rewrite Ha, Hf.
    + rewrite Ha, Hp. reflexivity.
Qed.

Lemma undecodable_fails_unknown_is_skipped_witness :
  exists st0,
    StreamWebSocket (mkHandshake None None None [Frame (mkResp "ping" [] "")])
      (mkChan [] 0 true) None None = Running st0 /\
    receiver st0 = RecvRunning /\
    step Recv st0 = Some (setInbound st0 []).
Proof.
  match eval vm_compute in
    (StreamWebSocket (mkHandshake None None None [Frame (mkResp "ping" [] "")])
       (mkChan [] 0 true) None None) with
  | Running ?s0 =>
      exists s0;
      assert (Hn : "ping" <> "audio" /\ "ping" <> "finish") by (split; discriminate);
      pose proof (proj2 (undecodable_fails_unknown_is_skipped s0 [] eq_refl)
                    (mkResp "ping" [] "") eq_refl (or_introl Hn)) as H
  end.
  split; [vm_compute; reflexivity|]. split; [reflexivity|]. exact H.
Defined.

(** C2.  The receive goroutine publishes the error of an error finish
    and then closes the audio channel.  A caller that enters [Collect]
    after both finds two cases of the [select] in [Next] ready, the
    closed audio channel and the error, and Go chooses one of them at
    random.  When the closed channel is chosen, [Next] marks the stream
    closed without taking the error, and [Collect] returns no bytes and
    a nil error; when the error is chosen, [Collect] returns it. *)
Theorem error_finish_can_be_lost :
  exists st0 lost seen,
    StreamWebSocket (mkHandshake None None None [Frame (mkResp "finish" [] "error")])
      (mkChan [] 0 true) None None = Running st0 /\
    run [Recv; RecvCloseDone; RecvCloseConn; RecvCloseAudio; CallCollect PickAudio] st0
      = Some lost /\
    published lost = [WebSocketError "stream finished with error"] /\
    caller lost = Returned ([], None) /\
    WebSocketAudioStreamOps.Err (stream lost) = None /\
    run [Recv; RecvCloseDone; RecvCloseConn; RecvCloseAudio; CallCollect PickErr] st0
      = Some seen /\
    caller seen = Returned ([], Some (WebSocketError "stream finished with error")).
Proof.
  match eval vm_compute in
    (StreamWebSocket (mkHandshake None None None [Frame (mkResp "finish" [] "error")])
       (mkChan [] 0 true) None None) with
  | Running ?s0 =>
      exists s0;
      match eval vm_compute in
        (run [Recv; RecvCloseDone; RecvCloseConn; RecvCloseAudio; CallCollect PickAudio] s0) with
      | Some ?s1 =>
          exists s1;
          match eval vm_compute in
            (run [Recv; RecvCloseDone; RecvCloseConn; RecvCloseAudio; CallCollect PickErr] s0)
          with
          | Some ?s2 => exists s2
          end
      end
  end.
  repeat split; vm_compute; reflexivity.
Qed.

(** ** The duplex engine: [Collect] after a stop finish *)

Section CollectAfterStop.
Import WebSocketAudioStreamOps.

Variable fs : list wsResponse.
Variable fin : wsResponse.
Variable rest : list inbound.
Hypothesis fs_audio : Forall isAudio fs.
Hypothesis fin_stop : isStop fin.

Lemma Forall_isAudio_app l1 l2 : Forall isAudio (l1 ++ l2) -> Forall isAudio l1 /\ Forall isAudio l2.
Proof. apply Forall_app. Qed.

(** The steps of the send goroutine that report no failure touch
    neither the stream nor the receive goroutine nor the caller. *)
Lemma calm_sender_frames a st st' :
  ofSender a = true -> calm a = true -> step a st = Some st' ->
  stream st' = stream st /\ receiver st' = receiver st /\ caller st' = caller st /\
  inboundQ st' = inboundQ st.
Proof.
  intros Ha Hc. destruct a; try discriminate Ha; cbn [step].
  - destruct m; [discriminate Hc|]. destruct w; [discriminate Hc|].
    unfold stepSendText. destruct (sender st); try discriminate.
    destruct (recv (textChan st)) as [[[text|] ch]|]; try discriminate.
    intros [= <-]. auto.
  - unfold stepSendEnd. destruct (sender st); try discriminate.
    destruct (recv (textChan st)) as [[[text|] ch]|]; try discriminate.
    intros [= <-]. auto.
  - unfold stepSendDone. destruct (sender st); try discriminate.
    destruct (doneChan st); try discriminate. intros [= <-]. auto.
  - unfold stepSendStop. destruct (sender st); try discriminate.
    destruct m; intros [= <-]; auto.
Qed.

Lemma fin_not_audio : String.eqb (Event fin) "audio" = false.
Proof. destruct fin_stop as [-> _]. reflexivity. Qed.

Lemma fin_finish : String.eqb (Event fin) "finish" = true.
Proof. destruct fin_stop as [-> _]. reflexivity. Qed.

Lemma fin_not_error : String.eqb (Reason fin) "error" = false.
Proof. destruct fin_stop as [_ ->]. reflexivity. Qed.

Lemma audio_payload f : isAudio f -> (0 <? length (Audio f)) = true.
Proof.
  intros [_ H]. destruct (Audio f); [congruence|reflexivity].
Qed.

(** One iteration of [Collect] on a stream without error whose error
    queue is empty. *)
Lemma CollectIter_quiet p acc s :
  wsClosed s = false -> wsErr s = None -> errChan s = make 1 ->
  CollectIter p acc s =
    match queue (audioChan s) with
    | c :: q =>
        Some (Looping (acc ++ c),
              mkWS (mkChan q (capacity (audioChan s)) (isClosed (audioChan s)))
                (errChan s) c None false)
    | [] =>
        if isClosed (audioChan s)
        then Some (Returns (acc, None), mkWS (audioChan s) (errChan s) (wsBuf s) None true)
        else None
    end.
Proof.
  intros Hc He Hq. unfold CollectIter, Next, selectRecv, recv.
  rewrite Hc, He, Hq. cbn [orb isSome queue make isClosed].
  destruct (queue (audioChan s)) as [|c q]; [|reflexivity].
  destruct (isClosed (audioChan s)); reflexivity.
Qed.

Lemma took_nothing s s' : errChan s = make 1 -> errChan s' = make 1 -> took s s' = [].
Proof. intros H H'. apply took_same. congruence. Qed.

Lemma collectInv_step a st st' :
  calm a = true -> collectInv fs fin rest st -> step a st = Some st' ->
  collectInv fs fin rest st'.
Proof.
  intros Hcalm [fa fq fr Hfs Hq Hcap He Hw Hr Hc] Hstep.
  destruct (ofSender a) eqn:Hsend.
  { destruct (calm_sender_frames a st st' Hsend Hcalm Hstep) as (Hs & Hrc & Hcl & Hin).
    apply CollectInv with fa fq fr; unfold recvInv, callInv in *;
      rewrite ?Hs, ?Hrc, ?Hcl, ?Hin; assumption. }
  destruct a; try discriminate Hsend; try discriminate Hcalm; cbn [step] in Hstep.
  - (* Recv *)
    unfold stepRecv in Hstep. unfold recvInv in Hr.
    destruct (receiver st) eqn:Hpc; try discriminate.
    destruct Hr as [Hin Hopen]. rewrite Hin in Hstep.
    destruct fr as [|f fr].
    + cbn [map app] in Hstep. rewrite fin_not_audio, fin_finish, fin_not_error in Hstep.
      injection Hstep as <-.
      apply CollectInv with fa fq []; auto.
      unfold recvInv. cbn. auto.
    + cbn [map app] in Hstep.
      assert (Hf : isAudio f).
      { rewrite Hfs in fs_audio. apply Forall_isAudio_app in fs_audio as [_ H].
        apply Forall_isAudio_app in H as [_ H]. now inversion H. }
      destruct Hf as [Hev Hne]. rewrite Hev in Hstep. cbn [String.eqb] in Hstep.
      replace (String.eqb "audio" "audio") with true in Hstep by reflexivity.
      rewrite (audio_payload f (conj Hev Hne)) in Hstep.
      destruct (send (Audio f) (audioChan (stream st))) as [ch|] eqn:Hsd; [|discriminate].
      injection Hstep as <-.
      unfold send in Hsd.
      destruct (length (queue (audioChan (stream st))) <? capacity (audioChan (stream st)));
        [|discriminate].
      injection Hsd as <-.
      apply CollectInv with fa (fq ++ [f]) fr; cbn; auto.
      * now rewrite <- !app_assoc.
      * now rewrite Hq, map_app.
      * unfold recvInv. cbn. rewrite Hpc. auto.
  - (* RecvCloseDone *)
    unfold stepRecvCloseDone in Hstep. unfold recvInv in Hr.
    destruct (receiver st) eqn:Hpc; try discriminate. injection Hstep as <-.
    apply CollectInv with fa fq fr; auto.
  - unfold stepRecvCloseConn in Hstep. unfold recvInv in Hr.
    destruct (receiver st) eqn:Hpc; try discriminate. injection Hstep as <-.
    apply CollectInv with fa fq fr; auto.
  - unfold stepRecvCloseAudio in Hstep. unfold recvInv in Hr.
    destruct (receiver st) eqn:Hpc; try discriminate. injection Hstep as <-.
    destruct Hr as [Hfr _].
    apply CollectInv with fa fq fr; cbn; auto; unfold recvInv; cbn; auto.
  - (* CallCollect *)
    unfold stepCallCollect in Hstep. cbv zeta in Hstep. unfold callInv in Hc.
    assert (Hgo : forall acc, acc = concat (map Audio fa) -> wsClosed (stream st) = false ->
      match CollectIter p acc (stream st) with
      | Some (Looping acc', s') =>
          Some (setCaller (setObserved (setStream st s') (observed st ++ took (stream st) s'))
                  (Collecting acc'))
      | Some (Returns res, s') =>
          Some (setCaller (setObserved (setStream st s') (observed st ++ took (stream st) s'))
                  (Returned res))
      | None => None
      end = Some st' -> collectInv fs fin rest st').
    { intros acc Hacc Hopen. rewrite (CollectIter_quiet p acc (stream st) Hopen Hw He).
      rewrite Hq. destruct fq as [|f fq]; cbn [map].
      - destruct (isClosed (audioChan (stream st))) eqn:Hcl; [|discriminate].
        intros [= <-]. unfold recvInv in Hr.
        destruct (receiver st) eqn:Hpc; destruct Hr as [Hfr Hcl']; try congruence.
        subst fr. rewrite !app_nil_r in Hfs. subst fa.
        apply CollectInv with fs [] []; cbn; auto.
        + now rewrite !app_nil_r.
        + unfold recvInv. cbn. rewrite Hpc. auto.
        + unfold callInv. cbn. now rewrite Hacc.
      - intros [= <-].
        apply CollectInv with (fa ++ [f]) fq fr.
        + rewrite Hfs. now rewrite <- !app_assoc.
        + reflexivity.
        + exact Hcap.
        + exact He.
        + reflexivity.
        + unfold recvInv in *. cbn. destruct (receiver st); auto.
        + unfold callInv. cbn. split; [|reflexivity].
          rewrite Hacc, map_app, concat_app. cbn. now rewrite app_nil_r. }
    destruct (caller st) eqn:Hcaller.
    + destruct Hc as [-> Hopen]. now apply (Hgo []).
    + destruct Hc as [Hacc Hopen]. now apply (Hgo acc).
    + discriminate.
Qed.

Lemma collect_progress st :
  collectInv fs fin rest st ->
  (forall res, caller st <> Returned res) ->
  exists a st', calm a = true /\ step a st = Some st' /\ toGo st' < toGo st.
Proof.
  intros [fa fq fr Hfs Hq Hcap He Hw Hr Hc] Hnot.
  assert (Hopen : wsClosed (stream st) = false /\
                  exists acc, stepCallCollect PickAudio st =
                    match CollectIter PickAudio acc (stream st) with
                    | Some (Looping acc', s') =>
                        Some (setCaller (setObserved (setStream st s')
                                (observed st ++ took (stream st) s')) (Collecting acc'))
                    | Some (Returns res, s') =>
                        Some (setCaller (setObserved (setStream st s')
                                (observed st ++ took (stream st) s')) (Returned res))
                    | None => None
                    end).
  { unfold callInv in Hc. unfold stepCallCollect. cbv zeta.
    destruct (caller st) eqn:Hcl.
    - destruct Hc as [_ Ho]. split; [exact Ho|]. now exists [].
    - destruct Hc as [_ Ho]. split; [exact Ho|]. now exists acc.
    - now destruct (Hnot res). }
  destruct Hopen as [Hopen [acc Hcall]].
  rewrite (CollectIter_quiet PickAudio acc (stream st) Hopen Hw He), Hq in Hcall.
  assert (Hone : match caller st with Returned _ => 0 | _ => 1 end = 1).
  { destruct (caller st) eqn:Hcl; auto. now destruct (Hnot res). }
  unfold recvInv in Hr. unfold toGo. rewrite Hone.
  destruct (receiver st) eqn:Hpc.
  - (* running *)
    destruct Hr as [Hin Hcl]. destruct fr as [|f fr].
    + exists Recv. eexists. split; [reflexivity|]. split.
      * cbn [step]. unfold stepRecv. rewrite Hpc, Hin. cbn [map app].
        rewrite fin_not_audio, fin_finish, fin_not_error. reflexivity.
      * cbn. destruct (caller st); lia.
    + assert (Hf : isAudio f).
      { rewrite Hfs in fs_audio. apply Forall_isAudio_app in fs_audio as [_ H].
        apply Forall_isAudio_app in H as [_ H]. now inversion H. }
      destruct (Nat.ltb_spec (length (queue (audioChan (stream st))))
                  (capacity (audioChan (stream st)))) as [Hroom|Hfull].
      * exists Recv. eexists. split; [reflexivity|]. split.
        -- cbn [step]. unfold stepRecv. rewrite Hpc, Hin. cbn [map app].
           destruct Hf as [Hev Hne]. rewrite Hev.
           replace (String.eqb "audio" "audio") with true by reflexivity.
           rewrite (audio_payload f (conj Hev Hne)). unfold send.
           apply Nat.ltb_lt in Hroom. rewrite Hroom. reflexivity.
        -- cbn. rewrite Hpc, Hin. cbn [map app length]. rewrite !length_app. cbn [length].
           destruct (caller st); lia.
      * rewrite Hcap, Hq in Hfull. destruct fq as [|g fq]; [cbn in Hfull; lia|].
        cbn [map] in Hcall.
        exists (CallCollect PickAudio). eexists. split; [reflexivity|]. split.
        -- cbn [step]. exact Hcall.
        -- cbn. rewrite Hpc, Hq. cbn [map length]. lia.
  - exists RecvCloseDone. eexists. split; [reflexivity|]. split.
    + cbn [step]. unfold stepRecvCloseDone. rewrite Hpc. reflexivity.
    + cbn. destruct (caller st); lia.
  - exists RecvCloseConn. eexists. split; [reflexivity|]. split.
    + cbn [step]. unfold stepRecvCloseConn. rewrite Hpc. reflexivity.
    + cbn. destruct (caller st); lia.
  - exists RecvCloseAudio. eexists. split; [reflexivity|]. split.
    + cbn [step]. unfold stepRecvCloseAudio. rewrite Hpc. reflexivity.
    + cbn. destruct (caller st); lia.
  - destruct Hr as [_ Hcl]. rewrite Hcl in Hcall.
    exists (CallCollect PickAudio). destruct fq as [|g fq]; cbn [map] in Hcall.
    + eexists. split; [reflexivity|]. split; [cbn [step]; exact Hcall|].
      cbn. rewrite Hpc, Hq. cbn. lia.
    + eexists. split; [reflexivity|]. split; [cbn [step]; exact Hcall|].
      cbn. rewrite Hpc, Hq. cbn. lia.
Qed.

(** From every state of such a run the caller can be led to the end
    of [Collect]. *)
Lemma collect_completes :
  forall n st,
    toGo st <= n -> collectInv fs fin rest st ->
    exists sched st',
      forallb calm sched = true /\ run sched st = Some st' /\
      caller st' = Returned (concat (map Audio fs), None).
Proof.
  induction n as [|n IH]; intros st Hn Hinv.
  - destruct (caller st) as [|acc|res] eqn:Hc.
    + unfold toGo in Hn. rewrite Hc in Hn. lia.
    + unfold toGo in Hn. rewrite Hc in Hn. lia.
    + exists [], st. repeat split; auto.
      destruct Hinv as [fa fq fr _ _ _ _ _ _ Hcall]. unfold callInv in Hcall.
      rewrite Hc in Hcall. now rewrite Hcall in Hc.
  - destruct (caller st) as [|acc|res] eqn:Hc.
    3:{ exists [], st. repeat split; auto.
        destruct Hinv as [fa fq fr _ _ _ _ _ _ Hcall]. unfold callInv in Hcall.
        rewrite Hc in Hcall. now rewrite Hcall in Hc. }
    all: destruct (collect_progress st Hinv) as (a & st1 & Ha & Hstep & Hlt);
      [intros res; congruence|];
      destruct (IH st1) as (sched & st' & Hs & Hrun & Hret);
      [lia|exact (collectInv_step a st st1 Ha Hinv Hstep)|];
      exists (a :: sched), st'; cbn; rewrite Ha, Hstep; auto.
Qed.

End CollectAfterStop.

(** C1 fails as stated: the error queue is shared with the send
    goroutine, and an error that the send goroutine publishes ends
    [Collect] with that error whatever the server sent.  Here the write
    of the fragment "x" fails, the receive goroutine decodes an audio
    frame "a" and a stop finish and exits, and [Collect] returns no
    bytes and the error of the write. *)
Lemma send_failure_ends_Collect_after_stop :
  exists st0 st,
    StreamWebSocket
      (mkHandshake None None None
         [Frame (mkResp "audio" (b "a") ""); Frame (mkResp "finish" [] "stop")])
      (mkChan ["x"] 1 false) None None = Running st0 /\
    run [SendText None (Some (TransportError "broken pipe")); Recv; Recv; RecvCloseDone;
         RecvCloseConn; RecvCloseAudio; CallCollect PickErr] st0 = Some st /\
    receiver st = RecvExited /\
    inboundQ st = [] /\
    caller st = Returned ([], Some (Errorf "failed to send text" (TransportError "broken pipe"))).
Proof.
  match eval vm_compute in
    (StreamWebSocket
      (mkHandshake None None None
         [Frame (mkResp "audio" (b "a") ""); Frame (mkResp "finish" [] "stop")])
      (mkChan ["x"] 1 false) None None) with
  | Running ?s0 =>
      exists s0;
      match eval vm_compute in
        (run [SendText None (Some (TransportError "broken pipe")); Recv; Recv; RecvCloseDone;
              RecvCloseConn; RecvCloseAudio; CallCollect PickErr] s0) with
      | Some ?s1 => exists s1
      end
  end.
  repeat split; vm_compute; reflexivity.
Qed.

(** C1, amended.  Let the connection deliver audio frames with
    non-empty payloads and then a finish frame with reason "stop", and
    let the send goroutine report no failure.  On every schedule on
    which the caller does nothing but run [Collect], if [Collect] has
    returned, it has returned the payloads concatenated in the order of
    the frames and a nil error; and from every state of such a schedule
    the run can be continued until [Collect] has returned. *)
Theorem Collect_returns_audio_in_order env tc params opts fs fin rest st0 sched st :
  Forall isAudio fs -> isStop fin ->
  deliveries env = map Frame fs ++ Frame fin :: rest ->
  StreamWebSocket env tc params opts = Running st0 ->
  forallb calm sched = true ->
  run sched st0 = Some st ->
  (forall res, caller st = Returned res -> res = (concat (map Audio fs), None)) /\
  (exists more st',
     forallb calm more = true /\ run more st = Some st' /\
     caller st' = Returned (concat (map Audio fs), None)).
Proof.
  intros Hfs Hfin Hdel Hstart Hcalm Hrun.
  assert (H0 : collectInv fs fin rest st0).
  { unfold StreamWebSocket in Hstart.
    destruct (dial env); [discriminate|].
    destruct (startMarshal env); [discriminate|].
    destruct (startWrite env); [discriminate|].
    injection Hstart as <-.
    apply CollectInv with [] [] fs; cbn; auto;
      unfold recvInv, callInv; cbn; auto. }
  assert (H : collectInv fs fin rest st).
  { exact (run_invariant (collectInv fs fin rest) calm
             (fun a s s' Ha Hi Hs => collectInv_step fs fin rest Hfs Hfin a s s' Ha Hi Hs)
             sched st0 st Hcalm H0 Hrun). }
  split.
  - intros res Hres. destruct H as [fa fq fr _ _ _ _ _ _ Hc].
    unfold callInv in Hc. now rewrite Hres in Hc.
  - exact (collect_completes fs fin rest Hfs Hfin (toGo st) st (le_n _) H).
Qed.

(** The scenario of the specification: fragments "Hello" and "World",
    the server answers "chunk1", "chunk2" and a stop finish. *)
Lemma Collect_returns_audio_in_order_witness :
  let fs := [mkResp "audio" (b "chunk1") ""; mkResp "audio" (b "chunk2") ""] in
  let fin := mkResp "finish" [] "stop" in
  let sched := [SendText None None; SendText None None; SendEnd; SendStop None None;
                Recv; CallCollect PickAudio; Recv; Recv; RecvCloseDone; RecvCloseConn;
                RecvCloseAudio; CallCollect PickErr; CallCollect PickAudio] in
  Forall isAudio fs /\ isStop fin /\
  exists st0 st,
    StreamWebSocket (mkHandshake None None None (map Frame fs ++ [Frame fin]))
      (mkChan ["Hello"; "World"] 2 true) None None = Running st0 /\
    forallb calm sched = true /\
    run sched st0 = Some st /\
    caller st = Returned (b "chunk1chunk2", None) /\
    (forall res, caller st = Returned res -> res = (concat (map Audio fs), None)).
Proof.
  intros fs fin sched.
  assert (Hfs : Forall isAudio fs).
  { repeat constructor; cbn; discriminate. }
  assert (Hfin : isStop fin) by (split; reflexivity).
  split; [exact Hfs|]. split; [exact Hfin|].
  match eval vm_compute in
    (StreamWebSocket (mkHandshake None None None (map Frame fs ++ [Frame fin]))
       (mkChan ["Hello"; "World"] 2 true) None None) with
  | Running ?s0 =>
      exists s0;
      match eval vm_compute in (run sched s0) with
      | Some ?s1 => exists s1
      end
  end.
  match goal with
  | |- ?A /\ ?B /\ ?C /\ _ =>
      assert (H0 : A) by (vm_compute; reflexivity);
      assert (H1 : B) by (vm_compute; reflexivity);
      assert (H2 : C) by (vm_compute; reflexivity)
  end.
  split; [exact H0|]. split; [exact H1|]. split; [exact H2|].
  split; [vm_compute; reflexivity|].
  exact (proj1 (Collect_returns_audio_in_order
                  (mkHandshake None None None (map Frame fs ++ [Frame fin]))
                  (mkChan ["Hello"; "World"] 2 true) None None fs fin [] _ sched _
                  Hfs Hfin eq_refl H0 H1 H2)).
Defined.

(** * Further properties of the code *)

(** ** AudioStream *)

Section AudioStreamMore.
Import AudioStreamOps.

Lemma body_closed_at_most_once_witness :
  exists s',
    runOps [OpNext; OpClose; OpCollect; OpRead 4; OpClose]
      (newAudioStream (mkResponse (Some (bodyOf (b "data"))))) = Some s' /\
    bodyCloses s' <= 1.
Proof.
  match eval vm_compute in
    (runOps [OpNext; OpClose; OpCollect; OpRead 4; OpClose]
       (newAudioStream (mkResponse (Some (bodyOf (b "data")))))) with
  | Some ?s1 =>
      exists s1;
      assert (H : runOps [OpNext; OpClose; OpCollect; OpRead 4; OpClose]
                    (newAudioStream (mkResponse (Some (bodyOf (b "data"))))) = Some s1)
        by (vm_compute; reflexivity)
  end.
  split; [exact H|].
  exact (body_closed_at_most_once _ (bodyOf (b "data")) _ eq_refl H).
Defined.

Lemma Collect_agrees_with_drain_witness :
  let r := bodyOf (b "chunk1chunk2chunk3") in
  0 < 6 /\ eofAlone (pending r) /\
  exists out s1 res s2,
    drain (S (weight (pending r))) []
      (mkAudioStream (Some (mkResponse (Some r))) [] 6 None false) = Some (out, s1) /\
    Collect (mkAudioStream (Some (mkResponse (Some r))) [] 6 None false) = Some (res, s2) /\
    snd res = Err s1 /\
    (Err s1 = None -> fst res = out) /\
    closed s2 = true.
Proof.
  intros r.
  assert (H6 : 0 < 6) by lia.
  assert (Ha : eofAlone (pending r)).
  { repeat constructor. cbn. discriminate. }
  split; [exact H6|]. split; [exact Ha|].
  exact (Collect_agrees_with_drain r 6 [] H6 Ha).
Defined.

Lemma Body_Read_bound k r : length (fst (fst (Body_Read k r))) <= k.
Proof.
  unfold Body_Read. destruct (pending r) as [|[d c] rest]; cbn; [lia|].
  destruct (Nat.leb_spec (length d) k); cbn; [lia|].
  rewrite length_firstn. lia.
Qed.

(** [Collect] on a stream that is not closed reads the body up to the
    first condition it reports.  When that condition is [io.EOF] it
    returns all the bytes read and a nil error, otherwise no bytes and
    the condition as the error.  In both cases the stream is left
    closed, its body has been closed once more, and the error of the
    stream is not touched. *)
Theorem Collect_reads_to_first_condition s r :
  closed s = false -> body s = Some r ->
  exists s',
    Collect s =
      Some (if is_EOF (snd (delivered (pending r)))
            then (fst (delivered (pending r)), None)
            else ([], Some (snd (delivered (pending r)))), s') /\
    closed s' = true /\
    bodyCloses s' = S (closes r) /\
    Err s' = Err s.
Proof.
  intros Hc Hb. unfold Collect. rewrite Hb.
  pose proof (io_Copy_delivered r) as Hio.
  pose proof (copyLoop_closes (S (weight (pending r))) copyBufSize [] r) as Hcl.
  fold (io_Copy r) in Hcl.
  destruct (io_Copy r) as [[d c] r']. cbn [fst snd] in *.
  injection Hio as -> ->.
  assert (Hs : closed (snd (Close (setBody s r'))) = true /\
               bodyCloses (snd (Close (setBody s r'))) = S (closes r) /\
               Err (snd (Close (setBody s r'))) = Err s).
  { unfold Close, setBody. cbn [closed resp]. rewrite Hc. cbn.
    rewrite Hcl. auto. }
  destruct (is_EOF (snd (delivered (pending r)))); eexists; (split; [reflexivity|exact Hs]).
Qed.

Lemma Collect_reads_to_first_condition_witness :
  let s := newAudioStream
             (mkResponse (Some (mkBody [(b "abc", None); (b "de", Some (TransportError "reset"))]
                                  None 0))) in
  exists s',
    Collect s = Some (([], Some (TransportError "reset")), s') /\
    closed s' = true /\ bodyCloses s' = 1 /\ Err s' = None.
Proof.
  intros s.
  exact (Collect_reads_to_first_condition s
           (mkBody [(b "abc", None); (b "de", Some (TransportError "reset"))] None 0)
           eq_refl eq_refl).
Defined.

(** Once [Next] has returned false it returns false for good: every
    later call returns false and leaves the stream, its body and its
    error as they are. *)
Theorem Next_false_is_final s s' :
  Next s = Some (false, s') -> Next s' = Some (false, s').
Proof.
  unfold Next at 1. destruct (closed s || isSome (err s)) eqn:Hg.
  - intros [= <-]. unfold Next. now rewrite Hg.
  - destruct (body s) as [r|]; [|discriminate].
    destruct (Body_Read (chunkSize s) r) as [[d c] r'].
    destruct c as [e|]; [|discriminate].
    destruct (is_EOF e); intros [= <-]; unfold Next; cbn [closed err isSome orb];
      [reflexivity|now rewrite orb_true_r].
Qed.

Lemma Next_false_is_final_witness :
  exists s',
    Next (newAudioStream (mkResponse (Some (mkBody [] None 0)))) = Some (false, s') /\
    Next s' = Some (false, s').
Proof.
  match eval vm_compute in (Next (newAudioStream (mkResponse (Some (mkBody [] None 0))))) with
  | Some (false, ?s1) =>
      exists s1;
      assert (H : Next (newAudioStream (mkResponse (Some (mkBody [] None 0)))) = Some (false, s1))
        by (vm_compute; reflexivity)
  end.
  split; [exact H|].
  exact (Next_false_is_final _ _ H).
Defined.

(** A chunk handed over by [Next] has at most [chunkSize] bytes, and
    [Next] returns true only on a stream without error that is not
    closed and stays so. *)
Theorem Next_chunk_is_bounded s s' :
  Next s = Some (true, s') ->
  length (Bytes s') <= chunkSize s /\ Err s' = None /\ closed s' = false /\
  Err s = None /\ closed s = false.
Proof.
  unfold Next. destruct (closed s) eqn:Hc; cbn [orb]; [discriminate|].
  destruct (err s) as [e0|] eqn:He; cbn [isSome]; [discriminate|].
  destruct (body s) as [r|]; [|discriminate].
  pose proof (Body_Read_bound (chunkSize s) r) as Hb.
  destruct (Body_Read (chunkSize s) r) as [[d c] r']. cbn [fst] in Hb.
  destruct c as [e|]; [destruct (is_EOF e); discriminate|].
  intros [= <-]. cbn. auto.
Qed.

Lemma Next_chunk_is_bounded_witness :
  exists s',
    Next (mkAudioStream (Some (mkResponse (Some (bodyOf (b "chunk1chunk2chunk3"))))) [] 6
            None false) = Some (true, s') /\
    Bytes s' = b "chunk1" /\
    length (Bytes s') <= 6.
Proof.
  match eval vm_compute in
    (Next (mkAudioStream (Some (mkResponse (Some (bodyOf (b "chunk1chunk2chunk3"))))) [] 6
             None false)) with
  | Some (true, ?s1) =>
      exists s1;
      assert (H : Next (mkAudioStream (Some (mkResponse (Some (bodyOf (b "chunk1chunk2chunk3")))))
                          [] 6 None false) = Some (true, s1))
        by (vm_compute; reflexivity)
  end.
  split; [exact H|]. split; [reflexivity|].
  exact (proj1 (Next_chunk_is_bounded _ _ H)).
Defined.

(** [Close] is idempotent: a second [Close] returns nil and changes
    nothing.  The first [Close] of a stream that is not marked closed
    closes the body once and returns what the body's [Close] returns; a
    stream without response or without body is marked closed and nil is
    returned. *)
Theorem Close_closes_body_once s :
  Close (snd (Close s)) = (None, snd (Close s)) /\
  closed (snd (Close s)) = true /\
  (closed s = false ->
     match body s with
     | Some r => bodyCloses (snd (Close s)) = S (closes r) /\ fst (Close s) = closeErr r
     | None => fst (Close s) = None
     end).
Proof.
  split; [apply AudioStream_Close_twice|]. split; [apply Close_closed|].
  intros Hc. destruct (body s) as [r|] eqn:Hb.
  - now apply first_Close_closes_body.
  - unfold Close, body in *. rewrite Hc.
    destruct (resp s) as [[[r|]]|]; try discriminate; reflexivity.
Qed.

End AudioStreamMore.

(** ** WebSocketAudioStream *)

Section WebSocketStreamMore.
Import WebSocketAudioStreamOps.

(** Once [Next] has returned false on a stream whose error channel is
    not closed, every later [Next] returns false without waiting and
    without receiving from either channel. *)
Theorem WebSocket_Next_false_is_final p s s' :
  isClosed (errChan s) = false ->
  Next p s = Some (false, s') ->
  forall p', Next p' s' = Some (false, s').
Proof.
  intros Hopen. unfold Next at 1. destruct (wsClosed s || isSome (wsErr s)) eqn:Hg.
  - intros [= <-] p'. unfold Next. now rewrite Hg.
  - destruct (selectRecv p s) as [sel|] eqn:Hsel; [|discriminate].
    apply selectRecv_cases in Hsel as [(c & ch & -> & Hr)|(e & ch & -> & Hr)].
    + destruct c; [discriminate|]. intros [= <-] p'. reflexivity.
    + intros [= <-] p'.
      apply recv_cases in Hr as [(x & rest & Hq & -> & ->)|(Hq & Hcl & _ & _)];
        [|congruence].
      unfold Next. cbn [wsClosed wsErr isSome]. now rewrite orb_true_r.
Qed.

Lemma WebSocket_Next_false_is_final_witness :
  let s := mkWS (make 1) (mkChan [io_EOF] 1 false) [] None false in
  exists s',
    isClosed (errChan s) = false /\
    Next PickAudio s = Some (false, s') /\
    Err s' = Some io_EOF /\
    Next PickAudio s' = Some (false, s').
Proof.
  intros s.
  match eval vm_compute in (Next PickAudio s) with
  | Some (false, ?s1) =>
      exists s1;
      assert (H : Next PickAudio s = Some (false, s1)) by (vm_compute; reflexivity)
  end.
  split; [reflexivity|]. split; [exact H|]. split; [reflexivity|].
  exact (WebSocket_Next_false_is_final PickAudio s _ eq_refl H PickAudio).
Defined.

(** One iteration of [Collect] when no error is queued. *)
Lemma CollectIter_no_error p acc s :
  wsClosed s = false -> wsErr s = None ->
  queue (errChan s) = [] -> isClosed (errChan s) = false ->
  CollectIter p acc s =
    match queue (audioChan s) with
    | c :: q =>
        Some (Looping (acc ++ c),
              mkWS (mkChan q (capacity (audioChan s)) (isClosed (audioChan s)))
                (errChan s) c None false)
    | [] =>
        if isClosed (audioChan s)
        then Some (Returns (acc, None), mkWS (audioChan s) (errChan s) (wsBuf s) None true)
        else None
    end.
Proof.
  intros Hc He Hq Ho. unfold CollectIter, Next, selectRecv, recv.
  rewrite Hc, He, Hq, Ho. cbn [orb isSome].
  destruct (queue (audioChan s)) as [|c q]; [|reflexivity].
  destruct (isClosed (audioChan s)); reflexivity.
Qed.

(** [Collect] on a stream whose audio channel has been closed and whose
    error channel is empty returns the queued chunks concatenated in
    the order of the queue, after whatever [acc] holds, and a nil
    error, however the selects are resolved; the stream is left
    closed. *)
Theorem WebSocket_Collect_drains_closed_channel :
  forall chunks picks acc s,
    wsClosed s = false -> wsErr s = None ->
    queue (errChan s) = [] -> isClosed (errChan s) = false ->
    queue (audioChan s) = chunks -> isClosed (audioChan s) = true ->
    length chunks < length picks ->
    exists s',
      Collect picks acc s = Some ((acc ++ concat chunks, None), s') /\
      wsClosed s' = true /\ Err s' = None.
Proof.
  induction chunks as [|c chunks IH]; intros picks acc s Hc He Hq Ho Ha Hcl Hlen.
  - destruct picks as [|p picks]; [cbn in Hlen; lia|].
    cbn [Collect]. rewrite (CollectIter_no_error p acc s Hc He Hq Ho), Ha, Hcl.
    eexists. cbn [concat]. rewrite app_nil_r. repeat split.
  - destruct picks as [|p picks]; [cbn in Hlen; lia|].
    cbn [Collect]. rewrite (CollectIter_no_error p acc s Hc He Hq Ho), Ha.
    destruct (IH picks (acc ++ c)
                (mkWS (mkChan chunks (capacity (audioChan s)) (isClosed (audioChan s)))
                   (errChan s) c None false)) as (s' & Hs' & Hcl' & He');
      auto; [cbn in *; lia|].
    exists s'. rewrite Hs'. cbn [concat]. now rewrite app_assoc.
Qed.

Lemma WebSocket_Collect_drains_closed_channel_witness :
  let s := mkWS (mkChan [b "aaa"; b "bbb"; b "ccc"] 3 true) (make 1) [] None false in
  exists s',
    Collect [PickErr; PickAudio; PickErr; PickAudio] [] s = Some ((b "aaabbbccc", None), s') /\
    wsClosed s' = true /\ Err s' = None.
Proof.
  intros s.
  exact (WebSocket_Collect_drains_closed_channel
           [b "aaa"; b "bbb"; b "ccc"] [PickErr; PickAudio; PickErr; PickAudio] [] s
           eq_refl eq_refl eq_refl eq_refl eq_refl eq_refl
           (le_n 4)).
Defined.

(** [Collect] on a stream whose error channel holds an error and whose
    audio channel is open returns no bytes and the oldest queued error,
    however many chunks are queued and however the selects are
    resolved. *)
Theorem WebSocket_Collect_reports_queued_error :
  forall chunks picks acc s e es,
    wsClosed s = false -> wsErr s = None ->
    queue (errChan s) = e :: es ->
    queue (audioChan s) = chunks -> isClosed (audioChan s) = false ->
    length chunks < length picks ->
    exists s', Collect picks acc s = Some (([], Some e), s') /\ Err s' = Some e.
Proof.
  induction chunks as [|c chunks IH]; intros picks acc s e es Hc He Hq Ha Hop Hlen;
    (destruct picks as [|p picks]; [cbn in Hlen; lia|]);
    cbn [Collect]; unfold CollectIter, Next, selectRecv, recv;
    rewrite Hc, He, Hq, Ha, ?Hop; cbn [orb isSome].
  - eexists. cbn. split; reflexivity.
  - destruct p.
    + cbn [Bytes wsBuf wsErr].
      destruct (IH picks (acc ++ c)
                  (mkWS (mkChan chunks (capacity (audioChan s)) false)
                     (errChan s) c None false) e es) as (s' & Hs' & He');
        auto; [cbn in *; lia|].
      exists s'. now rewrite Hs'.
    + eexists. cbn. split; reflexivity.
Qed.

Lemma WebSocket_Collect_reports_queued_error_witness :
  let s := mkWS (mkChan [b "data"] 2 false) (mkChan [io_EOF] 1 false) [] None false in
  exists s', Collect [PickAudio; PickAudio] [] s = Some (([], Some io_EOF), s') /\
             Err s' = Some io_EOF.
Proof.
  intros s.
  exact (WebSocket_Collect_reports_queued_error [b "data"] [PickAudio; PickAudio] [] s
           io_EOF [] eq_refl eq_refl eq_refl eq_refl eq_refl (le_n 2)).
Defined.

(** The two streams differ after [Close].  On the duplex stream [Read]
    does not look at the closed flag: it returns the same bytes and the
    same error as without the [Close].  On the single-response stream
    [Read] returns no bytes and [io.EOF] and leaves the body alone. *)
Theorem Read_after_Close :
  (forall k p s,
     option_map fst (Read k p (snd (Close s))) = option_map fst (Read k p s)) /\
  (forall k s,
     AudioStreamOps.Read k (snd (AudioStreamOps.Close s))
       = Some (([], Some io_EOF), snd (AudioStreamOps.Close s))).
Proof.
  split.
  - intros k p s. unfold Read, Close. cbn [snd wsBuf audioChan errChan wsErr wsClosed].
    destruct (0 <? length (wsBuf s)); [reflexivity|].
    unfold selectRecv. cbn [audioChan errChan].
    destruct (recv (audioChan s)) as [[[c|] ch]|], (recv (errChan s)) as [[e ch']|];
      try destruct p; reflexivity.
  - intros k s. unfold AudioStreamOps.Read. now rewrite Close_closed.
Qed.

(** [Read] never returns more bytes than the buffer holds, on either
    stream; on the duplex stream it never returns bytes together with
    an error. *)
Theorem Read_fits_buffer :
  (forall k p s d e s',
     Read k p s = Some ((d, e), s') -> length d <= k /\ (e <> None -> d = [])) /\
  (forall k s d e s',
     AudioStreamOps.Read k s = Some ((d, e), s') -> length d <= k).
Proof.
  split.
  - intros k p s d e s'. unfold Read.
    destruct (0 <? length (wsBuf s)).
    + intros [= <- <- <-]. split; [rewrite length_firstn; lia|congruence].
    + destruct (selectRecv p s) as [[[c|] ch|e0 ch]|]; try discriminate;
        intros [= <- <- <-]; split; cbn; try lia; try congruence; auto.
      rewrite length_firstn. lia.
  - intros k s d e s'. unfold AudioStreamOps.Read.
    destruct (closed s); [intros [= <- <- <-]; cbn; lia|].
    destruct (AudioStreamOps.body s) as [r|]; [|discriminate].
    pose proof (Body_Read_bound k r) as Hb.
    destruct (Body_Read k r) as [[d0 e0] r']. intros [= <- <- <-]. exact Hb.
Qed.

Lemma Read_fits_buffer_witness :
  exists s',
    Read 5 PickAudio (mkWS (mkChan [b "hello world"] 2 true) (make 1) [] None false)
      = Some ((b "hello", None), s') /\
    length (b "hello") <= 5.
Proof.
  eexists. split; [reflexivity|].
  exact (proj1 (proj1 Read_fits_buffer 5 PickAudio
                  (mkWS (mkChan [b "hello world"] 2 true) (make 1) [] None false)
                  (b "hello") None _ eq_refl)).
Defined.

End WebSocketStreamMore.

(** ** The duplex engine: shutdown, queues and what is published *)

Section EngineMore.
Import WebSocketAudioStreamOps.

(** Takes a step apart: one case for each way the step can be taken. *)
Ltac crack H :=
  match type of H with
  | step ?a ?st = Some ?st' =>
      destruct a; cbn [step] in H;
      unfold stepSendText, stepSendEnd, stepSendDone, stepSendStop, stepRecv,
        stepRecvCloseDone, stepRecvCloseConn, stepRecvCloseAudio, stepCallNext,
        stepCallRead, stepCallClose, stepCallCollect in H;
      cbv zeta in H;
      repeat match type of H with
             | context [match ?x with _ => _ end] => destruct x eqn:?
             end;
      try discriminate H;
      injection H as <-
  end.

Lemma audioEffect_refl s : audioEffect s s.
Proof. unfold audioEffect. auto. Qed.

Lemma Next_audioEffect p s r s' : Next p s = Some (r, s') -> audioEffect s s'.
Proof.
  unfold Next. destruct (wsClosed s || isSome (wsErr s)).
  { intros [= <- <-]. apply audioEffect_refl. }
  destruct (selectRecv p s) as [sel|] eqn:Hsel; [|discriminate].
  apply selectRecv_cases in Hsel as [(c & ch & -> & Hr)|(e & ch & -> & Hr)].
  - apply recv_cases in Hr as [(x & rest & Hq & -> & ->)|(Hq & Hcl & -> & ->)];
      intros [= <- <-]; unfold audioEffect; cbn; eauto.
  - intros [= <- <-]. unfold audioEffect. cbn. auto.
Qed.

Lemma Read_audioEffect k p s r s' : Read k p s = Some (r, s') -> audioEffect s s'.
Proof.
  unfold Read. destruct (0 <? length (wsBuf s)).
  { intros [= <- <-]. unfold audioEffect. cbn. auto. }
  destruct (selectRecv p s) as [sel|] eqn:Hsel; [|discriminate].
  apply selectRecv_cases in Hsel as [(c & ch & -> & Hr)|(e & ch & -> & Hr)].
  - apply recv_cases in Hr as [(x & rest & Hq & -> & ->)|(Hq & Hcl & -> & ->)];
      intros [= <- <-]; unfold audioEffect; cbn; eauto.
  - intros [= <- <-]. unfold audioEffect. cbn. auto.
Qed.

Lemma CollectIter_audioEffect p acc s c s' :
  CollectIter p acc s = Some (c, s') -> audioEffect s s'.
Proof.
  intros H. destruct (CollectIter_Next _ _ _ _ _ H) as [r HN].
  exact (Next_audioEffect _ _ _ _ HN).
Qed.

Lemma send_keeps {A} (x : A) ch ch' :
  send x ch = Some ch' ->
  capacity ch' = capacity ch /\ isClosed ch' = isClosed ch /\
  queue ch' = queue ch ++ [x] /\ length (queue ch) < capacity ch.
Proof.
  unfold send. destruct (Nat.ltb_spec (length (queue ch)) (capacity ch)); [|discriminate].
  intros [= <-]. cbn. auto.
Qed.

(** Replaces what a step did to the audio channel by equations. *)
Ltac audio_facts :=
  repeat match goal with
         | E : send _ _ = Some _ |- _ => apply send_keeps in E as (? & ? & ? & ?)
         | E : Next _ _ = Some _ |- _ => apply Next_audioEffect in E as (? & ? & ?)
         | E : Read _ _ _ = Some _ |- _ => apply Read_audioEffect in E as (? & ? & ?)
         | E : CollectIter _ _ _ = Some _ |- _ =>
             apply CollectIter_audioEffect in E as (? & ? & ?)
         end.

Lemma shutdownOrder_step a st st' :
  shutdownOrder st -> step a st = Some st' -> shutdownOrder st'.
Proof.
  intros H Hstep. unfold shutdownOrder in *.
  crack Hstep; cbn in *; audio_facts;
    repeat match goal with
           | E : isClosed _ = isClosed _ |- _ => rewrite E
           end;
    try exact H;
    repeat match goal with
           | E : doneChan st = _ |- _ => rewrite E
           | E : receiver st = _ |- _ => rewrite E
           end;
    try exact H;
    destruct H as (? & ? & ?); repeat split; congruence.
Qed.

Lemma audioQueueInv_step a st st' :
  audioQueueInv st -> step a st = Some st' -> audioQueueInv st'.
Proof.
  intros (Hcap & Hlen & Hall) Hstep. unfold audioQueueInv in *.
  crack Hstep; cbn in *; audio_facts;
    try (repeat split; assumption).
  all: repeat match goal with
              | E : capacity _ = capacity _ |- _ => rewrite E
              | E : queue _ = queue _ ++ _ |- _ => rewrite E
              end.
  - split; [assumption|]. split.
    + rewrite length_app. cbn. lia.
    + apply Forall_app. split; [assumption|].
      constructor; [|constructor]. intros E.
      match goal with
      | B : match length (Audio _) with _ => _ end = true |- _ => rewrite E in B; discriminate B
      end.
  - match goal with D : _ \/ _ |- _ => destruct D as [E|[c0 E]] end;
      [rewrite E; auto|].
    rewrite E in Hlen, Hall. inversion Hall. cbn in Hlen. repeat split; auto. lia.
  - match goal with D : _ \/ _ |- _ => destruct D as [E|[c0 E]] end;
      [rewrite E; auto|].
    rewrite E in Hlen, Hall. inversion Hall. cbn in Hlen. repeat split; auto. lia.
  - match goal with D : _ \/ _ |- _ => destruct D as [E|[c0 E]] end;
      [rewrite E; auto|].
    rewrite E in Hlen, Hall. inversion Hall. cbn in Hlen. repeat split; auto. lia.
  - match goal with D : _ \/ _ |- _ => destruct D as [E|[c0 E]] end;
      [rewrite E; auto|].
    rewrite E in Hlen, Hall. inversion Hall. cbn in Hlen. repeat split; auto. lia.
  - match goal with D : _ \/ _ |- _ => destruct D as [E|[c0 E]] end;
      [rewrite E; auto|].
    rewrite E in Hlen, Hall. inversion Hall. cbn in Hlen. repeat split; auto. lia.
  - match goal with D : _ \/ _ |- _ => destruct D as [E|[c0 E]] end;
      [rewrite E; auto|].
    rewrite E in Hlen, Hall. inversion Hall. cbn in Hlen. repeat split; auto. lia.
Qed.

Lemma IsCloseError_Errorf p e : IsCloseError (Errorf p e) = false.
Proof. reflexivity. Qed.

Lemma trySend_queue {A} (x : A) ch :
  queue (trySend x ch) = queue ch \/ queue (trySend x ch) = queue ch ++ [x].
Proof.
  unfold trySend, send. destruct (length (queue ch) <? capacity ch); cbn; auto.
Qed.

Lemma noExpectedClosure_publish e st :
  IsCloseError e = false -> noExpectedClosure st -> noExpectedClosure (publish e st).
Proof.
  intros He (Hp & Hq & Ho). unfold noExpectedClosure. cbn. repeat split; auto.
  - apply Forall_app. auto.
  - destruct (trySend_queue e (errChan (stream st))) as [E|E]; rewrite E; auto.
    apply Forall_app. auto.
Qed.

Lemma noExpectedClosure_call st s' :
  callEffect (stream st) s' -> noExpectedClosure st ->
  noExpectedClosure (setObserved (setStream st s') (observed st ++ took (stream st) s')).
Proof.
  intros [(He & Ht)|(x & rest & Hq & He & Ht & _)] (Hp & Hq' & Ho);
    unfold noExpectedClosure; cbn; rewrite He, Ht.
  - rewrite app_nil_r. auto.
  - rewrite Hq in Hq'. inversion Hq'; subst. cbn. repeat split; auto.
    apply Forall_app. auto.
Qed.

Lemma Next_callEffect p s r s' : Next p s = Some (r, s') -> callEffect s s'.
Proof.
  intros H. apply Next_effect in H as [(He & Ht & _)|(_ & x & rest & Hq & He & Ht & Hw)].
  - left. auto.
  - right. exists x, rest. auto.
Qed.

Lemma noExpectedClosure_step a st st' :
  noExpectedClosure st -> step a st = Some st' -> noExpectedClosure st'.
Proof.
  intros H Hstep.
  crack Hstep.
  all: try exact H.
  all: try match goal with
           | |- noExpectedClosure (_ (publish ?e ?s) _) =>
               change (noExpectedClosure (publish e s));
               apply noExpectedClosure_publish; [first [reflexivity|assumption]|exact H]
           end.
  all: match goal with
       | E : Next _ _ = Some _ |- _ => apply Next_callEffect in E
       | E : Read _ _ _ = Some _ |- _ => apply Read_effect in E
       | E : CollectIter _ _ _ = Some _ |- _ =>
           apply CollectIter_Next in E as [? E]; apply Next_callEffect in E
       end.
  all: match goal with
       | E : callEffect _ ?w |- noExpectedClosure (setCaller ?x _) =>
           change (noExpectedClosure x); now apply noExpectedClosure_call
       | E : callEffect _ ?w |- _ => now apply noExpectedClosure_call
       end.
Qed.

Lemma shutdownOrder_reached env tc params opts st0 sched st :
  StreamWebSocket env tc params opts = Running st0 ->
  run sched st0 = Some st ->
  shutdownOrder st.
Proof.
  intros Hstart Hrun.
  assert (H0 : shutdownOrder st0).
  { unfold StreamWebSocket in Hstart.
    destruct (dial env); [discriminate|].
    destruct (startMarshal env); [discriminate|].
    destruct (startWrite env); [discriminate|].
    injection Hstart as <-. unfold shutdownOrder. cbn. auto. }
  exact (run_invariant shutdownOrder (fun _ => true)
           (fun a s s' _ => shutdownOrder_step a s s') sched st0 st
           (forallb_true sched) H0 Hrun).
Qed.

Lemma audio_closed_after_exit env tc params opts st0 sched st :
  StreamWebSocket env tc params opts = Running st0 ->
  run sched st0 = Some st ->
  receiver st = RecvExited ->
  isClosed (audioChan (stream st)) = true.
Proof.
  intros Hstart Hrun Hex.
  pose proof (shutdownOrder_reached env tc params opts st0 sched st Hstart Hrun) as H.
  unfold shutdownOrder in H. rewrite Hex in H. apply H.
Qed.


(** The receive goroutine shuts down in the order of its deferred
    calls and closes the connection once.  In every state of a running
    engine the connection has been closed at most once; it has been
    closed only after [doneChan] was closed, and the audio channel is
    closed only after the connection was closed; the audio channel is
    closed exactly when the receive goroutine has exited. *)
Theorem connection_closed_once_in_order env tc params opts st0 sched st :
  StreamWebSocket env tc params opts = Running st0 ->
  run sched st0 = Some st ->
  connCloses st <= 1 /\
  (connCloses st = 1 -> doneChan st = true) /\
  (isClosed (audioChan (stream st)) = true -> connCloses st = 1) /\
  (isClosed (audioChan (stream st)) = true <-> receiver st = RecvExited).
Proof.
  intros Hstart Hrun.
  pose proof (shutdownOrder_reached env tc params opts st0 sched st Hstart Hrun) as H.
  unfold shutdownOrder in H.
  destruct (receiver st); destruct H as (H1 & H2 & H3); rewrite ?H1, ?H2, ?H3;
    repeat split; try lia; try congruence; auto.
Qed.

Lemma connection_closed_once_in_order_witness :
  exists st0 st,
    StreamWebSocket (mkHandshake None None None [ReadFails (TransportError "reset")])
      (mkChan [] 0 true) None None = Running st0 /\
    run [Recv; SendEnd; RecvCloseDone; RecvCloseConn; SendStop None None; RecvCloseAudio] st0
      = Some st /\
    connCloses st = 1 /\ doneChan st = true /\ receiver st = RecvExited /\
    isClosed (audioChan (stream st)) = true.
Proof.
  match eval vm_compute in
    (StreamWebSocket (mkHandshake None None None [ReadFails (TransportError "reset")])
       (mkChan [] 0 true) None None) with
  | Running ?s0 =>
      exists s0;
      match eval vm_compute in
        (run [Recv; SendEnd; RecvCloseDone; RecvCloseConn; SendStop None None; RecvCloseAudio]
           s0) with
      | Some ?s1 =>
          exists s1;
          assert (Hr : receiver s1 = RecvExited) by (vm_compute; reflexivity)
      end
  end.
  match goal with
  | |- ?A /\ ?B /\ _ =>
      assert (H0 : A) by (vm_compute; reflexivity);
      assert (H1 : B) by (vm_compute; reflexivity)
  end.
  split; [exact H0|]. split; [exact H1|].
  destruct (connection_closed_once_in_order _ _ None None _ _ _ H0 H1)
    as (_ & Hd & Hc & Hx).
  pose proof (proj2 Hx Hr) as Hcl.
  split; [exact (Hc Hcl)|]. split; [exact (Hd (Hc Hcl))|]. split; [exact Hr|exact Hcl].
Defined.

Lemma audioQueueInv_reached env tc params opts st0 sched st :
  StreamWebSocket env tc params opts = Running st0 ->
  run sched st0 = Some st ->
  audioQueueInv st.
Proof.
  intros Hstart Hrun.
  assert (H0 : audioQueueInv st0).
  { unfold StreamWebSocket in Hstart.
    destruct (dial env); [discriminate|].
    destruct (startMarshal env); [discriminate|].
    destruct (startWrite env); [discriminate|].
    injection Hstart as <-. unfold audioQueueInv. cbn. repeat split; auto. lia. }
  exact (run_invariant audioQueueInv (fun _ => true)
           (fun a s s' _ => audioQueueInv_step a s s') sched st0 st
           (forallb_true sched) H0 Hrun).
Qed.

Lemma Next_chunk_nonempty p s s' :
  Forall (fun c : bytes => c <> []) (queue (audioChan s)) ->
  Next p s = Some (true, s') -> Bytes s' <> [].
Proof.
  intros Hall. unfold Next.
  destruct (wsClosed s || isSome (wsErr s)); [discriminate|].
  destruct (selectRecv p s) as [sel|] eqn:Hsel; [|discriminate].
  apply selectRecv_cases in Hsel as [(c & ch & -> & Hr)|(e & ch & -> & Hr)];
    [|discriminate].
  apply recv_cases in Hr as [(x & rest & Hq & -> & ->)|(Hq & Hcl & -> & ->)];
    [|discriminate].
  intros [= <-]. cbn. rewrite Hq in Hall. now inversion Hall.
Qed.

(** The audio channel of a running engine has capacity 100 and never
    holds more than 100 chunks; no queued chunk is empty, so a chunk
    that [Next] hands to the caller is never empty. *)
Theorem audio_queue_is_bounded env tc params opts st0 sched st :
  StreamWebSocket env tc params opts = Running st0 ->
  run sched st0 = Some st ->
  capacity (audioChan (stream st)) = 100 /\
  length (queue (audioChan (stream st))) <= 100 /\
  Forall (fun c : bytes => c <> []) (queue (audioChan (stream st))) /\
  (forall p s', Next p (stream st) = Some (true, s') -> Bytes s' <> []).
Proof.
  intros Hstart Hrun.
  destruct (audioQueueInv_reached env tc params opts st0 sched st Hstart Hrun)
    as (Hcap & Hlen & Hall).
  repeat split; auto.
  intros p s'. now apply Next_chunk_nonempty.
Qed.

Lemma audio_queue_is_bounded_witness :
  exists st0 st,
    StreamWebSocket
      (mkHandshake None None None
         [Frame (mkResp "audio" [] ""); Frame (mkResp "audio" (b "x") "")])
      (mkChan [] 0 true) None None = Running st0 /\
    run [Recv; Recv] st0 = Some st /\
    queue (audioChan (stream st)) = [b "x"] /\
    length (queue (audioChan (stream st))) <= 100.
Proof.
  match eval vm_compute in
    (StreamWebSocket
      (mkHandshake None None None
         [Frame (mkResp "audio" [] ""); Frame (mkResp "audio" (b "x") "")])
      (mkChan [] 0 true) None None) with
  | Running ?s0 =>
      exists s0;
      match eval vm_compute in (run [Recv; Recv] s0) with
      | Some ?s1 => exists s1
      end
  end.
  match goal with
  | |- ?A /\ ?B /\ _ =>
      assert (H0 : A) by (vm_compute; reflexivity);
      assert (H1 : B) by (vm_compute; reflexivity)
  end.
  split; [exact H0|]. split; [exact H1|]. split; [vm_compute; reflexivity|].
  exact (proj1 (proj2 (audio_queue_is_bounded _ _ None None _ _ _ H0 H1))).
Defined.

(** A read error that is a close with code 1000 (normal closure) or
    1005 (no status received) is never reported: no error published by
    a running engine, queued in the error channel or handed to the
    caller is such a close error. *)
Theorem expected_closure_is_never_reported env tc params opts st0 sched st :
  StreamWebSocket env tc params opts = Running st0 ->
  run sched st0 = Some st ->
  Forall (fun e => IsCloseError e = false) (published st) /\
  Forall (fun e => IsCloseError e = false) (queue (errChan (stream st))) /\
  Forall (fun e => IsCloseError e = false) (observed st).
Proof.
  intros Hstart Hrun.
  assert (H0 : noExpectedClosure st0).
  { unfold StreamWebSocket in Hstart.
    destruct (dial env); [discriminate|].
    destruct (startMarshal env); [discriminate|].
    destruct (startWrite env); [discriminate|].
    injection Hstart as <-. unfold noExpectedClosure. cbn. auto. }
  assert (H : noExpectedClosure st).
  { exact (run_invariant noExpectedClosure (fun _ => true)
             (fun a s s' _ => noExpectedClosure_step a s s') sched st0 st
             (forallb_true sched) H0 Hrun). }
  exact H.
Qed.

Lemma expected_closure_is_never_reported_witness :
  exists st0 st,
    StreamWebSocket
      (mkHandshake None None None
         [Frame (mkResp "audio" (b "x") ""); ReadFails (CloseError 1005)])
      (mkChan [] 0 true) None None = Running st0 /\
    run [Recv; Recv; RecvCloseDone; RecvCloseConn; RecvCloseAudio;
         CallCollect PickAudio; CallCollect PickAudio] st0 = Some st /\
    published st = [] /\
    caller st = Returned (b "x", None) /\
    Forall (fun e => IsCloseError e = false) (published st).
Proof.
  match eval vm_compute in
    (StreamWebSocket
      (mkHandshake None None None
         [Frame (mkResp "audio" (b "x") ""); ReadFails (CloseError 1005)])
      (mkChan [] 0 true) None None) with
  | Running ?s0 =>
      exists s0;
      match eval vm_compute in
        (run [Recv; Recv; RecvCloseDone; RecvCloseConn; RecvCloseAudio;
              CallCollect PickAudio; CallCollect PickAudio] s0) with
      | Some ?s1 => exists s1
      end
  end.
  match goal with
  | |- ?A /\ ?B /\ _ =>
      assert (H0 : A) by (vm_compute; reflexivity);
      assert (H1 : B) by (vm_compute; reflexivity)
  end.
  split; [exact H0|]. split; [exact H1|]. split; [vm_compute; reflexivity|].
  split; [vm_compute; reflexivity|].
  exact (proj1 (expected_closure_is_never_reported _ _ None None _ _ _ H0 H1)).
Defined.

End EngineMore.

(** ** Starting the engine, building requests, classifying API errors *)

(** [StreamWebSocket] either starts the engine or fails.  It starts the
    engine exactly when the dial, the encoding of the start event and
    its write all succeed; the connection is then open, the start event
    built from the params is the only message written, and the stream
    is fresh with queues of capacity 100 and 1.  When the dial fails
    nothing is closed or written; on a later failure the connection is
    closed once before the error is returned.  Every error returned is
    wrapped. *)
Theorem StreamWebSocket_outcomes env tc params opts :
  match StreamWebSocket env tc params opts with
  | Running st =>
      dial env = None /\ startMarshal env = None /\ startWrite env = None /\
      connCloses st = 0 /\
      written st =
        [(startEvent "start"
            (buildRequest (match params with Some p => p | None => StreamParams.zero end)),
          None)] /\
      stream st = mkWS (make 100) (make 1) [] None false /\
      textChan st = tc /\ inboundQ st = deliveries env /\
      sender st = SendRunning /\ receiver st = RecvRunning
  | Failed e closes wrote =>
      match dial env with
      | Some c => e = Errorf "websocket dial failed" c /\ closes = 0 /\ wrote = []
      | None =>
          closes = 1 /\
          ((exists c, startMarshal env = Some c /\
                      e = Errorf "failed to marshal start event" c /\ wrote = []) \/
           (exists c, startMarshal env = None /\ startWrite env = Some c /\
                      e = Errorf "failed to send start event" c /\ length wrote = 1))
      end
  end.
Proof.
  unfold StreamWebSocket.
  destruct (dial env) as [c|]; [auto|].
  destruct (startMarshal env) as [c|]; [split; [reflexivity|left; eauto]|].
  destruct (startWrite env) as [c|]; [split; [reflexivity|right; eauto]|].
  repeat split.
Qed.

Section RequestBuilding.

(** In the request, a field set in the params wins over the config,
    and the config fills what the params leave empty: format, latency,
    reference id and references come from the params unless empty
    there; a non-zero speed becomes the prosody and the prosody of the
    config is then dropped as a whole; sample rate, bitrates, chunk
    length and normalization come from the config alone.  The text is
    always the text of the params. *)
Theorem params_take_precedence_over_config (p : StreamParams.t) (c : TTSConfig.t) :
  StreamParams.Config p = Some c ->
  let r := buildRequest p in
  ttsRequest.Text r = StreamParams.Text p /\
  ttsRequest.Format r =
    (if nonempty (StreamParams.Format p) then StreamParams.Format p else TTSConfig.Format c) /\
  ttsRequest.Latency r =
    (if nonempty (StreamParams.Latency p) then StreamParams.Latency p
     else TTSConfig.Latency c) /\
  ttsRequest.ReferenceID r =
    (if nonempty (StreamParams.ReferenceID p) then StreamParams.ReferenceID p
     else TTSConfig.ReferenceID c) /\
  ttsRequest.References r =
    (match StreamParams.References p with
     | [] => TTSConfig.References c
     | refs => refs
     end) /\
  ttsRequest.Prosody r =
    (if nonzero (StreamParams.Speed p)
     then Some (Prosody.mk (StreamParams.Speed p) PrimFloat.zero)
     else TTSConfig.Prosody c) /\
  ttsRequest.SampleRate r = TTSConfig.SampleRate c /\
  ttsRequest.MP3Bitrate r = TTSConfig.MP3Bitrate c /\
  ttsRequest.OpusBitrate r = TTSConfig.OpusBitrate c /\
  ttsRequest.ChunkLength r = TTSConfig.ChunkLength c /\
  ttsRequest.Normalize r = TTSConfig.Normalize c.
Proof.
  intros Hc r. subst r. unfold buildRequest. rewrite Hc. cbn.
  assert (Hz : forall z : Z, (if negb (z =? 0)%Z then z else 0%Z) = z).
  { intros z. destruct (Z.eqb_spec z 0); cbn; congruence. }
  assert (Hs : forall a x : string,
             (if nonempty x && negb (nonempty a) then x else a)
             = (if nonempty a then a else x)).
  { intros a x. destruct a, x; reflexivity. }
  rewrite !Hz, !Hs. repeat split.
  - destruct (StreamParams.References p) as [|x refs]; cbn.
    + destruct (TTSConfig.References c); reflexivity.
    + now rewrite andb_false_r.
  - destruct (nonzero (StreamParams.Speed p)); destruct (TTSConfig.Prosody c); reflexivity.
  - destruct (TTSConfig.Normalize c); reflexivity.
Qed.

Lemma params_take_precedence_over_config_witness :
  let c := TTSConfig.mk "" "wav" 0 0 0 None 0 "normal" "config-voice" [] None
             PrimFloat.zero PrimFloat.zero in
  let p := StreamParams.mk "Hello" "" "param-voice" [] "mp3" "balanced" PrimFloat.zero
             (Some c) in
  StreamParams.Config p = Some c /\
  ttsRequest.ReferenceID (buildRequest p) = "param-voice" /\
  ttsRequest.Format (buildRequest p) = "mp3" /\
  ttsRequest.Latency (buildRequest p) = "balanced".
Proof.
  intros c p.
  pose proof (params_take_precedence_over_config p c eq_refl)
    as (_ & Hf & Hl & Hr & _).
  split; [reflexivity|]. split; [exact Hr|]. split; [exact Hf|exact Hl].
Defined.

(** A config with no field set is the same as no config: the request
    and the model are those of the params alone. *)
Theorem empty_config_is_no_config text model refID refs format latency speed :
  buildRequest (StreamParams.mk text model refID refs format latency speed (Some zeroConfig))
    = buildRequest (StreamParams.mk text model refID refs format latency speed None) /\
  getModel (StreamParams.mk text model refID refs format latency speed (Some zeroConfig))
    = getModel (StreamParams.mk text model refID refs format latency speed None).
Proof.
  split.
  - unfold buildRequest, zeroConfig. cbn.
    replace (nonzero PrimFloat.zero) with false by reflexivity.
    destruct (nonzero speed); reflexivity.
  - unfold getModel. cbn. destruct (nonempty model); reflexivity.
Qed.

Variable doRequest :
  string -> string -> ttsRequest.t -> option RequestOptions -> Response + error.

(** [Convert] never returns bytes together with an error: whether the
    request fails or the body fails after delivering part of the audio,
    the caller gets the error and no bytes. *)
Theorem Convert_returns_bytes_or_error (c : ConvertParams.t) data e :
  Convert doRequest c = Some (data, Some e) -> data = [].
Proof.
  unfold Convert.
  destruct (Stream doRequest _) as [s|e0]; [|now intros [= <- _]].
  unfold AudioStreamOps.Collect.
  destruct (AudioStreamOps.body s) as [r|]; [|discriminate].
  destruct (io_Copy r) as [[d c0] r']. destruct c0; cbn; intros [= <- E]; congruence.
Qed.

End RequestBuilding.

Lemma Convert_returns_bytes_or_error_witness :
  let doRequest := fun (_ _ : string) (_ : ttsRequest.t) (_ : option RequestOptions) =>
                     inl (mkResponse
                            (Some (mkBody [(b "partial", Some (TransportError "reset"))]
                                     None 0))) in
  let c := ConvertParams.mk "Hello" "" "" [] "" "" PrimFloat.zero None in
  Convert doRequest c = Some ([], Some (TransportError "reset")).
Proof.
  intros doRequest c.
  assert (H : exists data, Convert doRequest c = Some (data, Some (TransportError "reset")))
    by (eexists; reflexivity).
  destruct H as [data H].
  rewrite <- (Convert_returns_bytes_or_error doRequest c data _ H). exact H.
Defined.

(** [newAPIError] keeps the status code, the message and the body for
    every status code, and the type of the error is decided by the code
    alone: 401, 403, 404, 422 and 429 have their own types, every code
    from 500 up is a server error, and every other code, below 400
    included, is a plain [APIError]. *)
Theorem newAPIError_classifies (code : Z) (message body : string) :
  baseOf (newAPIError code message body) = APIError.mk code message body /\
  (newAPIError code message body = AuthenticationError (APIError.mk code message body)
     <-> code = 401%Z) /\
  (newAPIError code message body = PermissionError (APIError.mk code message body)
     <-> code = 403%Z) /\
  (newAPIError code message body = NotFoundError (APIError.mk code message body)
     <-> code = 404%Z) /\
  (newAPIError code message body = ValidationError (APIError.mk code message body)
     <-> code = 422%Z) /\
  (newAPIError code message body = RateLimitError (APIError.mk code message body)
     <-> code = 429%Z) /\
  (newAPIError code message body = ServerError (APIError.mk code message body)
     <-> (500 <= code)%Z) /\
  (newAPIError code message body = PlainAPIError (APIError.mk code message body)
     <-> (code < 500 /\ code <> 401 /\ code <> 403 /\ code <> 404 /\ code <> 422 /\
          code <> 429)%Z).
Proof.
  unfold newAPIError.
  destruct (Z.eqb_spec code 401); [subst; cbn; repeat split; try discriminate; try lia|].
  destruct (Z.eqb_spec code 403); [subst; cbn; repeat split; try discriminate; try lia|].
  destruct (Z.eqb_spec code 404); [subst; cbn; repeat split; try discriminate; try lia|].
  destruct (Z.eqb_spec code 422); [subst; cbn; repeat split; try discriminate; try lia|].
  destruct (Z.eqb_spec code 429); [subst; cbn; repeat split; try discriminate; try lia|].
  destruct (Z.leb_spec 500 code); cbn; repeat split; try discriminate; try lia; auto.
Qed.

(** ** The caller and the engine *)

Section CallerMore.
Import WebSocketAudioStreamOps.

Lemma closed_audio_never_blocks p s :
  isClosed (audioChan s) = true -> selectRecv p s <> None.
Proof.
  intros Hc. unfold selectRecv, recv. rewrite Hc.
  destruct (queue (audioChan s)); destruct (queue (errChan s));
    try destruct (isClosed (errChan s)); try destruct p; discriminate.
Qed.

(** Once the receive goroutine has exited, the caller never waits:
    [Next], [Read] and an iteration of [Collect] return at once,
    however the select is resolved. *)
Theorem caller_never_waits_after_exit env tc params opts st0 sched st :
  StreamWebSocket env tc params opts = Running st0 ->
  run sched st0 = Some st ->
  receiver st = RecvExited ->
  forall p k acc,
    Next p (stream st) <> None /\
    Read k p (stream st) <> None /\
    CollectIter p acc (stream st) <> None.
Proof.
  intros Hstart Hrun Hex p k acc.
  assert (Hc : isClosed (audioChan (stream st)) = true).
  { apply (audio_closed_after_exit env tc params opts st0 sched st); auto. }
  pose proof (closed_audio_never_blocks p (stream st) Hc) as Hsel.
  assert (HN : Next p (stream st) <> None).
  { unfold Next. destruct (wsClosed (stream st) || isSome (wsErr (stream st)));
      [discriminate|].
    destruct (selectRecv p (stream st)) as [[[c|] ch|e ch]|]; congruence. }
  split; [exact HN|]. split.
  - unfold Read. destruct (0 <? length (wsBuf (stream st))); [discriminate|].
    destruct (selectRecv p (stream st)) as [[[c|] ch|e ch]|]; congruence.
  - unfold CollectIter. destruct (Next p (stream st)) as [[[] s']|]; try congruence.
    destruct (wsErr s'); discriminate.
Qed.

(** In a running engine, a chunk handed over by [Next] stays in the
    buffer of the stream: a [Read] that follows does not receive from
    the channels but returns the first bytes of that same chunk
    again. *)
Theorem Read_after_Next_repeats_chunk env tc params opts st0 sched st p s' k p' :
  StreamWebSocket env tc params opts = Running st0 ->
  run sched st0 = Some st ->
  Next p (stream st) = Some (true, s') ->
  Bytes s' <> [] /\
  Read k p' s' =
    Some ((firstn k (Bytes s'), None),
          mkWS (audioChan s') (errChan s') (skipn k (Bytes s')) (wsErr s') (wsClosed s')).
Proof.
  intros Hstart Hrun HN.
  destruct (audioQueueInv_reached env tc params opts st0 sched st Hstart Hrun)
    as (_ & _ & Hall).
  pose proof (Next_chunk_nonempty p (stream st) s' Hall HN) as Hne.
  split; [exact Hne|]. now apply Read_from_buffer.
Qed.

Lemma Read_after_Next_repeats_chunk_witness :
  exists st0 st s',
    StreamWebSocket (mkHandshake None None None [Frame (mkResp "audio" (b "chunk1") "")])
      (mkChan [] 0 true) None None = Running st0 /\
    run [Recv] st0 = Some st /\
    Next PickAudio (stream st) = Some (true, s') /\
    Bytes s' = b "chunk1" /\
    option_map fst (Read 4 PickAudio s') = Some (b "chun", None).
Proof.
  match eval vm_compute in
    (StreamWebSocket (mkHandshake None None None [Frame (mkResp "audio" (b "chunk1") "")])
       (mkChan [] 0 true) None None) with
  | Running ?s0 =>
      exists s0;
      match eval vm_compute in (run [Recv] s0) with
      | Some ?s1 =>
          exists s1;
          match eval vm_compute in (Next PickAudio (stream s1)) with
          | Some (true, ?s2) =>
              exists s2;
              assert (H2 : Next PickAudio (stream s1) = Some (true, s2))
                by (vm_compute; reflexivity)
          end
      end
  end.
  match goal with
  | |- ?A /\ ?B /\ _ =>
      assert (H0 : A) by (vm_compute; reflexivity);
      assert (H1 : B) by (vm_compute; reflexivity)
  end.
  split; [exact H0|]. split; [exact H1|]. split; [exact H2|]. split; [reflexivity|].
  rewrite (proj2 (Read_after_Next_repeats_chunk _ _ None None _ _ _ PickAudio _ 4 PickAudio
                    H0 H1 H2)).
  reflexivity.
Defined.

Lemma caller_never_waits_after_exit_witness :
  exists st0 st,
    StreamWebSocket (mkHandshake None None None [Frame (mkResp "finish" [] "stop")])
      (mkChan [] 0 true) None None = Running st0 /\
    run [Recv; RecvCloseDone; RecvCloseConn; RecvCloseAudio] st0 = Some st /\
    receiver st = RecvExited /\
    Next PickErr (stream st) <> None.
Proof.
  match eval vm_compute in
    (StreamWebSocket (mkHandshake None None None [Frame (mkResp "finish" [] "stop")])
       (mkChan [] 0 true) None None) with
  | Running ?s0 =>
      exists s0;
      match eval vm_compute in
        (run [Recv; RecvCloseDone; RecvCloseConn; RecvCloseAudio] s0) with
      | Some ?s1 => exists s1
      end
  end.
  match goal with
  | |- ?A /\ ?B /\ ?C /\ _ =>
      assert (H0 : A) by (vm_compute; reflexivity);
      assert (H1 : B) by (vm_compute; reflexivity);
      assert (H2 : C) by (vm_compute; reflexivity)
  end.
  split; [exact H0|]. split; [exact H1|]. split; [exact H2|].
  exact (proj1 (caller_never_waits_after_exit _ _ None None _ _ _ H0 H1 H2 PickErr 0 [])).
Defined.

End CallerMore.
